(** * The unified-diff patch engine of [frontend/src/utils/codeDiffProcessor.ts]

    A shallow embedding of [CodeDiffProcessor] (parsing, context validation,
    hunk application, the apply orchestrator, the reference diff generator
    and the safety classifier), followed by the properties of the
    specification that concern it.

    Modelling conventions.
    - A JavaScript string is a [string]: a sequence of code units, here
      restricted to the range 0..255.  Within that range the characters
      that [trim] and the regular expression class [\s] regard as white
      space are 9, 10, 11, 12, 13, 32 and 160.
    - JavaScript numbers that hold line numbers and counts are exact
      integers ([Z], or [nat] for array indices and lengths); this agrees
      with the double-precision arithmetic of the source below 2^53.
    - A function that returns [{ success, ..., error }] is modelled with the
      sum type [Res]; the public [DiffResult] is a record as in the source.
    - None of the modelled operations can throw on the paths taken, so the
      [catch] branches of the source are unreachable and are not modelled,
      except for [parseHunk] called on an index outside its input. *)

From Stdlib Require Import ZArith List String Ascii Bool Lia DecimalString
  DecimalPos.
Import ListNotations.

Local Open Scope list_scope.
Local Open Scope string_scope.
Local Open Scope Z_scope.

(* ================================================================== *)
(** ** String primitives of the host language *)
(* ================================================================== *)

Module JS.

Definition NL : ascii := "010"%char.
Definition DQ : ascii := "034"%char.

Definition nl : string := String NL EmptyString.
Definition dq : string := String DQ EmptyString.

Definition isWhitespace (c : ascii) : bool :=
  let n := N_of_ascii c in
  (N.eqb n 9 || N.eqb n 10 || N.eqb n 11 || N.eqb n 12 || N.eqb n 13
   || N.eqb n 32 || N.eqb n 160)%bool.

Definition isDigit (c : ascii) : bool :=
  let n := N_of_ascii c in (N.leb 48 n && N.leb n 57)%bool.

(** [s.startsWith(p)] *)
Definition startsWith (s p : string) : bool := String.prefix p s.

(** [s.includes(p)] *)
Fixpoint includes (s p : string) : bool :=
  (String.prefix p s ||
   match s with
   | EmptyString => false
   | String _ r => includes r p
   end)%bool.

(** [s.split('\n')]: never empty, one more element than there are
    newlines. *)
Fixpoint split (s : string) : list string :=
  match s with
  | EmptyString => [EmptyString]
  | String c r =>
      if Ascii.eqb c NL then EmptyString :: split r
      else match split r with
           | [] => [String c EmptyString]
           | h :: t => String c h :: t
           end
  end.

(** [a.join('\n')] *)
Definition join (l : list string) : string := String.concat nl l.

Fixpoint trimStart (s : string) : string :=
  match s with
  | EmptyString => EmptyString
  | String c r => if isWhitespace c then trimStart r else s
  end.

Fixpoint trimEnd (s : string) : string :=
  match s with
  | EmptyString => EmptyString
  | String c r =>
      match trimEnd r with
      | EmptyString => if isWhitespace c then EmptyString else String c EmptyString
      | r' => String c r'
      end
  end.

(** [s.trim()] *)
Definition trim (s : string) : string := trimEnd (trimStart s).

(** [s.substring(1)] *)
Definition substring1 (s : string) : string :=
  match s with
  | EmptyString => EmptyString
  | String _ r => r
  end.

(** [parseInt] on a string of decimal digits. *)
Fixpoint parseDigits (acc : Z) (s : string) : Z :=
  match s with
  | EmptyString => acc
  | String c r => parseDigits (10 * acc + (Z.of_N (N_of_ascii c) - 48)) r
  end.

Definition parseInt (s : string) : Z := parseDigits 0 s.

(** Number-to-string conversion of template literals, on integers. *)
Definition show (z : Z) : string := NilZero.string_of_int (Z.to_int z).

Definition showN (n : nat) : string := show (Z.of_nat n).

(** [x || ''] for an array element that may be [undefined]. *)
Definition orEmpty (o : option string) : string :=
  match o with
  | Some s => s
  | None => EmptyString
  end.

(** [a === b] for array elements that may be [undefined]. *)
Definition sameLine (a b : option string) : bool :=
  match a, b with
  | Some x, Some y => String.eqb x y
  | None, None => true
  | _, _ => false
  end.

(** [a.splice(i, 1)] and [a.splice(i, 0, x)], as the resulting array.  The
    host clamps a start index beyond the end to the length, which [firstn]
    and [skipn] do as well. *)
Definition spliceRemove {A} (i : nat) (a : list A) : list A :=
  (firstn i a ++ skipn (S i) a)%list.

Definition spliceInsert {A} (i : nat) (x : A) (a : list A) : list A :=
  (firstn i a ++ x :: skipn i a)%list.

End JS.

Import JS.

(* ================================================================== *)
(** ** Data model *)
(* ================================================================== *)

Inductive LineType : Set := LContext | LRemove | LAdd.

(** [DiffLine]; the optional [originalNumber] is never written by the
    source and is left out. *)
Record DiffLine : Set := mkLine { type : LineType; content : string }.

Record DiffHunk : Set := mkHunk {
  oldStart : Z;
  oldLines : Z;
  newStart : Z;
  newLines : Z;
  lines : list DiffLine
}.

Record DiffResult : Set := mkResult {
  success : bool;
  newContent : option string;
  error : option string;
  appliedHunks : nat;
  totalHunks : nat;
  warnings : list string
}.

Inductive SafetyLevel : Set := Safe | Caution | Review.

Record SafetyResult : Set := mkSafety {
  safe : bool;
  level : SafetyLevel;
  issues : list string
}.

(** Internal [{ success: true, ... } | { success: false, error }] results. *)
Inductive Res (A : Type) : Type :=
| Ok (a : A)
| Err (e : string).
Arguments Ok {A} a.
Arguments Err {A} e.

Definition MAX_CONTEXT_LINES : Z := 3.
Definition MAX_HUNK_SIZE : Z := 100.

(* ================================================================== *)
(** ** Hunk header: the regular expression of [parseHunk] *)
(* ================================================================== *)

(** [/^@@\s+-?(\d+)(?:,(\d+))?\s+\+?(\d+)(?:,(\d+))?\s+@@/].  Every
    quantifier of the expression is followed by an item that rejects the
    characters the quantifier accepts, so backtracking never finds a match
    that the greedy left-to-right scan misses; the scan below is that
    greedy match. *)
Module Header.

(** [\s+] *)
Fixpoint skipWs (s : string) : string :=
  match s with
  | String c r => if isWhitespace c then skipWs r else s
  | EmptyString => s
  end.

Definition ws1 (s : string) : option string :=
  match s with
  | String c r => if isWhitespace c then Some (skipWs r) else None
  | EmptyString => None
  end.

(** an optional single character *)
Definition opt (ch : ascii) (s : string) : string :=
  match s with
  | String c r => if Ascii.eqb c ch then r else s
  | EmptyString => s
  end.

(** [\d*], returning the digits and the rest *)
Fixpoint digits (s : string) : string * string :=
  match s with
  | String c r =>
      if isDigit c then let '(d, rest) := digits r in (String c d, rest)
      else (EmptyString, s)
  | EmptyString => (EmptyString, s)
  end.

(** [(\d+)] *)
Definition digits1 (s : string) : option (string * string) :=
  match digits s with
  | (EmptyString, _) => None
  | (d, rest) => Some (d, rest)
  end.

(** [(?:,(\d+))?] *)
Definition optCount (s : string) : option string * string :=
  match s with
  | String c r =>
      if Ascii.eqb c ","%char then
        match digits1 r with
        | Some (d, rest) => (Some d, rest)
        | None => (None, s)
        end
      else (None, s)
  | EmptyString => (None, s)
  end.

Definition lit2 (s : string) : option string :=
  match s with
  | String "@" (String "@" r) => Some r
  | _ => None
  end.

(** The four capture groups, when the header matches. *)
Definition matchHeader (h : string)
  : option (string * option string * string * option string) :=
  match lit2 h with
  | None => None
  | Some s1 =>
  match ws1 s1 with
  | None => None
  | Some s2 =>
  match digits1 (opt "-" s2) with
  | None => None
  | Some (g1, s3) =>
  let '(g2, s4) := optCount s3 in
  match ws1 s4 with
  | None => None
  | Some s5 =>
  match digits1 (opt "+" s5) with
  | None => None
  | Some (g3, s6) =>
  let '(g4, s7) := optCount s6 in
  match ws1 s7 with
  | None => None
  | Some s8 =>
  match lit2 s8 with
  | None => None
  | Some _ => Some (g1, g2, g3, g4)
  end end end end end end end.

End Header.

(* ================================================================== *)
(** ** Parsing *)
(* ================================================================== *)

(** The test that ends a hunk body: the next hunk or a file header. *)
Definition isBoundary (line : string) : bool :=
  (startsWith line "@@" || startsWith line "---" || startsWith line "+++")%bool.

(** One body line of a hunk, as [parseHunk] pushes it. *)
Definition parseLine (line : string) : DiffLine :=
  if (String.eqb line "" ||
      (negb (startsWith line " ") && negb (startsWith line "-")
       && negb (startsWith line "+")))%bool
  then mkLine LContext line
  else
    match line with
    | String " " rest => mkLine LContext rest
    | String "-" rest => mkLine LRemove rest
    | String "+" rest => mkLine LAdd rest
    | _ => mkLine LContext line
    end.

(** The [while] loop of [parseHunk]: [rest] are the lines from index [i]
    on, [count] is [hunkLines.length]; returns the lines pushed from here
    on and the final [i]. *)
Fixpoint parseBody (expectedLines : Z) (rest : list string) (i count : nat)
  : list DiffLine * nat :=
  match rest with
  | [] => ([], i)
  | line :: rest' =>
      if negb (Z.of_nat count <? expectedLines) then ([], i)
      else if isBoundary line then ([], i)
      else
        let '(more, next) := parseBody expectedLines rest' (S i) (S count) in
        (parseLine line :: more, next)
  end.

(** [headerMatch[n] ? parseInt(headerMatch[n]) : 1] for a count group. *)
Definition declaredCount (g : option string) : Z :=
  match g with
  | Some d => parseInt d
  | None => 1
  end.

(** [parseHunk].  The header is always present when [parseDiff] calls it;
    on an index outside [lines] the source fails in [hunkHeader.match] and
    its [catch] returns an error whose text depends on the host. *)
Definition parseHunk (lines : list string) (startIndex : nat)
  : Res (DiffHunk * nat) :=
  match nth_error lines startIndex with
  | None => Err "Hunk parsing failed: hunkHeader is undefined"
  | Some hunkHeader =>
      match Header.matchHeader hunkHeader with
      | None => Err ("Invalid hunk header format: " ++ hunkHeader)
      | Some (g1, g2, g3, g4) =>
          let oldStart := parseInt g1 in
          let oldLines := declaredCount g2 in
          let newStart := parseInt g3 in
          let newLines := declaredCount g4 in
          if ((oldLines >? MAX_HUNK_SIZE) || (newLines >? MAX_HUNK_SIZE))%bool
          then Err ("Hunk too large (" ++ show (Z.max oldLines newLines)
                    ++ " lines, max " ++ show MAX_HUNK_SIZE ++ ")")
          else
            let expectedLines := Z.max oldLines newLines + 10 in
            let '(hunkLines, i) :=
              parseBody expectedLines (skipn (S startIndex) lines)
                        (S startIndex) 0 in
            Ok (mkHunk oldStart oldLines newStart newLines hunkLines, i)
      end
  end.

(** The [while] loop of [parseDiff].  [parseHunk] always returns an index
    beyond its header, so [List.length lines - i] decreases at every turn; the
    loop is written with fuel and [parseDiffLoop_total] shows that the fuel
    given by [parseDiff] is never used up. *)
Fixpoint parseDiffLoop (fuel : nat) (lines : list string) (i : nat)
         (hunks : list DiffHunk) : option (Res (list DiffHunk)) :=
  match fuel with
  | O => None
  | S fuel' =>
      match nth_error lines i with
      | None => Some (Ok hunks)
      | Some line =>
          if startsWith line "---" then parseDiffLoop fuel' lines (S i) hunks
          else if startsWith line "+++" then parseDiffLoop fuel' lines (S i) hunks
          else if startsWith line "@@" then
            match parseHunk lines i with
            | Ok (hunk, nextIndex) =>
                parseDiffLoop fuel' lines nextIndex (hunks ++ [hunk])%list
            | Err e =>
                Some (Err ("Invalid hunk at line " ++ showN (S i) ++ ": " ++ e))
            end
          else parseDiffLoop fuel' lines (S i) hunks
      end
  end.

Definition parseDiff (diffString : string) : Res (list DiffHunk) :=
  let lines := split diffString in
  match parseDiffLoop (S (List.length lines)) lines 0 [] with
  | Some r => r
  | None => Err "Diff parsing failed"
  end.

(* ================================================================== *)
(** ** Context validation and hunk application *)
(* ================================================================== *)

Definition isOld (l : DiffLine) : bool :=
  match type l with
  | LContext | LRemove => true
  | LAdd => false
  end.

Definition mismatchError (originalIndex : nat) (expected got : string) : string :=
  "Line " ++ showN (S originalIndex) ++ " doesn't match expected content. Expected: "
  ++ dq ++ trim expected ++ dq ++ ", Got: " ++ dq ++ trim got ++ dq.

Definition beyondEofError : string := "Hunk extends beyond end of file".

(** The [for] loop of [validateHunkContext] over the filtered lines;
    [None] is [{ success: true }]. *)
Fixpoint validateLoop (originalLines : list string) (contextLines : list DiffLine)
         (originalIndex : nat) : option string :=
  match contextLines with
  | [] => None
  | diffLine :: rest =>
      match nth_error originalLines originalIndex with
      | None => Some beyondEofError
      | Some originalLine =>
          if (isOld diffLine
              && negb (String.eqb (trim originalLine) (trim (content diffLine))))%bool
          then Some (mismatchError originalIndex (content diffLine) originalLine)
          else validateLoop originalLines rest (S originalIndex)
      end
  end.

Definition validateHunkContext (originalLines : list string) (hunk : DiffHunk)
           (startIndex : nat) : option string :=
  validateLoop originalLines (filter isOld (lines hunk)) startIndex.

(** The [while] loop of [applyHunk] over [hunk.lines]. *)
Fixpoint applyLines (originalLength : nat) (hunkLines : list DiffLine)
         (originalIndex : nat) (resultLines : list string) (linesDelta : Z)
  : list string * Z :=
  match hunkLines with
  | [] => (resultLines, linesDelta)
  | diffLine :: rest =>
      match type diffLine with
      | LContext =>
          if (originalIndex <? originalLength)%nat
          then applyLines originalLength rest (S originalIndex) resultLines linesDelta
          else applyLines originalLength rest originalIndex resultLines linesDelta
      | LRemove =>
          if (originalIndex <? List.length resultLines)%nat
          then applyLines originalLength rest originalIndex
                          (spliceRemove originalIndex resultLines) (linesDelta - 1)
          else applyLines originalLength rest originalIndex resultLines linesDelta
      | LAdd =>
          applyLines originalLength rest (S originalIndex)
                     (spliceInsert originalIndex (content diffLine) resultLines)
                     (linesDelta + 1)
      end
  end.

Definition outOfBoundsError (adjustedOldStart : Z) (len : nat) : string :=
  "Hunk start line " ++ show (adjustedOldStart + 1)
  ++ " is outside file bounds (1-" ++ showN len ++ ")".

Definition applyHunk (originalLines : list string) (hunk : DiffHunk)
           (currentOffset : Z) : Res (list string * Z) :=
  let adjustedOldStart := oldStart hunk + currentOffset - 1 in
  if ((adjustedOldStart <? 0)
      || (adjustedOldStart >=? Z.of_nat (List.length originalLines)))%bool
  then Err (outOfBoundsError adjustedOldStart (List.length originalLines))
  else
    match validateHunkContext originalLines hunk (Z.to_nat adjustedOldStart) with
    | Some e => Err ("Context validation failed: " ++ e)
    | None =>
        Ok (applyLines (List.length originalLines) (lines hunk)
                       (Z.to_nat adjustedOldStart) originalLines 0)
    end.

(* ================================================================== *)
(** ** The apply orchestrator *)
(* ================================================================== *)

(** The [for] loop of [applyCodeDiff] over the parsed hunks. *)
Fixpoint applyLoop (hunks : list DiffHunk) (resultLines : list string)
         (lineOffset : Z) (applied total : nat) (warns : list string)
  : DiffResult :=
  match hunks with
  | [] => mkResult true (Some (join resultLines)) None applied total warns
  | hunk :: rest =>
      match applyHunk resultLines hunk lineOffset with
      | Ok (newLines, delta) =>
          applyLoop rest newLines (lineOffset + delta) (S applied) total warns
      | Err e =>
          mkResult false None
                   (Some ("Failed to apply hunk " ++ showN (S applied) ++ ": " ++ e))
                   applied total
                   (warns ++ [("Hunk " ++ showN (S applied) ++ " failed: " ++ e)%string])%list
      end
  end.

Definition noHunksError : string := "No valid hunks found in diff".

Definition applyCodeDiff (originalContent diffString : string) : DiffResult :=
  match parseDiff diffString with
  | Err e => mkResult false None (Some e) 0 0 []
  | Ok hunks =>
      match hunks with
      | [] => mkResult false None (Some noHunksError) 0 0 []
      | _ => applyLoop hunks (split originalContent) 0 0 (List.length hunks) []
      end
  end.

(* ================================================================== *)
(** ** The reference diff generator *)
(* ================================================================== *)

(** First loop of [generateDiff], over [i = 0 .. maxLines - 1]. *)
Fixpoint findChanges (originalLines newLines : list string) (indices : list nat)
         (changeStart changeEnd : Z) : Z * Z :=
  match indices with
  | [] => (changeStart, changeEnd)
  | i :: rest =>
      let oldLine := orEmpty (nth_error originalLines i) in
      let newLine := orEmpty (nth_error newLines i) in
      if negb (String.eqb oldLine newLine)
      then findChanges originalLines newLines rest
                       (if changeStart =? -1 then Z.of_nat i else changeStart)
                       (Z.of_nat i)
      else findChanges originalLines newLines rest changeStart changeEnd
  end.

(** Second loop of [generateDiff], over [i = contextStart .. contextEnd]. *)
Fixpoint emitLines (originalLines newLines : list string) (indices : list nat)
         (diff : string) : string :=
  match indices with
  | [] => diff
  | i :: rest =>
      let oldLine := nth_error originalLines i in
      let newLine := nth_error newLines i in
      if sameLine oldLine newLine
      then emitLines originalLines newLines rest
                     (diff ++ " " ++ orEmpty oldLine ++ nl)
      else
        let diff1 := match oldLine with
                     | Some o => diff ++ "-" ++ o ++ nl
                     | None => diff
                     end in
        let diff2 := match newLine with
                     | Some n => diff1 ++ "+" ++ n ++ nl
                     | None => diff1
                     end in
        emitLines originalLines newLines rest diff2
  end.

Definition fileHeaders (filePath : string) : string :=
  "--- a/" ++ filePath ++ nl ++ "+++ b/" ++ filePath ++ nl.

Definition generateDiff (originalContent newText filePath : string) : string :=
  let originalLines := split originalContent in
  let newLines := split newText in
  let diff := fileHeaders filePath in
  let maxLines := Nat.max (List.length originalLines) (List.length newLines) in
  let '(changeStart, changeEnd) :=
    findChanges originalLines newLines (seq 0 maxLines) (-1) (-1) in
  if changeStart =? -1 then diff
  else
    let contextStart := Z.max 0 (changeStart - MAX_CONTEXT_LINES) in
    let contextEnd := Z.min (Z.of_nat maxLines - 1) (changeEnd + MAX_CONTEXT_LINES) in
    let oldCount := contextEnd - contextStart + 1 in
    let newCount := contextEnd - contextStart + 1 in
    let diff := diff ++ "@@ -" ++ show (contextStart + 1) ++ "," ++ show oldCount
                ++ " +" ++ show (contextStart + 1) ++ "," ++ show newCount
                ++ " @@" ++ nl in
    emitLines originalLines newLines
              (seq (Z.to_nat contextStart) (Z.to_nat (contextEnd - contextStart + 1)))
              diff.

(* ================================================================== *)
(** ** The safety classifier *)
(* ================================================================== *)

Definition dangerousIssue : string := "Contains potentially dangerous code execution".
Definition destructiveIssue : string := "Contains potentially destructive operations".
Definition largeDiffIssue : string := "Large diff - consider manual review".

(** The state of the scanning loop of [validateDiffSafety]. *)
Record Scan : Set := mkScan {
  addedLines : nat;
  removedLines : nat;
  hunkCount : nat;
  scanIssues : list string;
  scanLevel : SafetyLevel
}.

(** One turn of the [for] loop. *)
Definition scanLine (st : Scan) (line : string) : Scan :=
  let st1 :=
    if startsWith line "@@" then
      mkScan (addedLines st) (removedLines st) (S (hunkCount st))
             (scanIssues st) (scanLevel st)
    else if (startsWith line "+" && negb (startsWith line "+++"))%bool then
      mkScan (S (addedLines st)) (removedLines st) (hunkCount st)
             (scanIssues st) (scanLevel st)
    else if (startsWith line "-" && negb (startsWith line "---"))%bool then
      mkScan (addedLines st) (S (removedLines st)) (hunkCount st)
             (scanIssues st) (scanLevel st)
    else st in
  let st2 :=
    if (includes line "eval(" || includes line "exec(")%bool then
      mkScan (addedLines st1) (removedLines st1) (hunkCount st1)
             (scanIssues st1 ++ [dangerousIssue])%list Review
    else st1 in
  if (includes line "rm -rf" || includes line "DELETE FROM")%bool then
    mkScan (addedLines st2) (removedLines st2) (hunkCount st2)
           (scanIssues st2 ++ [destructiveIssue])%list Review
  else st2.

Definition scanLines (ls : list string) (st : Scan) : Scan :=
  fold_left scanLine ls st.

Definition validateDiffSafety (diffString : string) : SafetyResult :=
  let st := scanLines (split diffString) (mkScan 0 0 0 [] Safe) in
  let '(issues1, level1) :=
    if ((5 <? hunkCount st)%nat || (50 <? addedLines st + removedLines st)%nat)%bool
    then ((scanIssues st ++ [largeDiffIssue])%list,
          match scanLevel st with Safe => Caution | l => l end)
    else (scanIssues st, scanLevel st) in
  mkSafety (match level1 with Review => false | _ => true end) level1 issues1.

(* ================================================================== *)
(** ** Notions used to state the properties *)
(* ================================================================== *)

(** The hunk lines read when the lines [consumed] are taken from [rest]
    with [count] lines already pushed: what they are, where the loop
    stands afterwards, and why it stopped. *)
Record BodyRun (expectedLines : Z) (rest : list string) (i count : nat)
       (hunkLines : list DiffLine) (next : nat) (consumed : list string) : Prop := {
  run_lines : hunkLines = map parseLine consumed;
  run_next : next = (i + List.length consumed)%nat;
  run_taken : consumed = firstn (List.length consumed) rest;
  run_inside : Forall (fun l => isBoundary l = false) consumed;
  run_below : consumed <> [] ->
              Z.of_nat (count + List.length consumed) <= expectedLines;
  run_stop : skipn (List.length consumed) rest = []
             \/ (exists l, nth_error rest (List.length consumed) = Some l
                           /\ isBoundary l = true)
             \/ expectedLines <= Z.of_nat (count + List.length consumed)
}.

(** Every character of [s] is a decimal digit. *)
Fixpoint allDigits (s : string) : bool :=
  match s with
  | EmptyString => true
  | String c r => (isDigit c && allDigits r)%bool
  end.


(** The hunks [hs] all apply, one after the other, from buffer [buf] and
    running offset [off]; the buffer and offset they leave. *)
Fixpoint applyAll (buf : list string) (off : Z) (hs : list DiffHunk)
  : option (list string * Z) :=
  match hs with
  | [] => Some (buf, off)
  | h :: rest =>
      match applyHunk buf h off with
      | Ok (buf', delta) => applyAll buf' (off + delta) rest
      | Err _ => None
      end
  end.

(** The result of [applyCodeDiff] when hunk number [n] (1-based) of
    [total] is refused with error [e]. *)
Definition hunkFailure (n total : nat) (e : string) : DiffResult :=
  mkResult false None
           (Some ("Failed to apply hunk " ++ showN n ++ ": " ++ e))
           (pred n) total
           [("Hunk " ++ showN n ++ " failed: " ++ e)%string].

(** The context and remove lines of a hunk, in order. *)
Definition oldSide (h : DiffHunk) : list DiffLine := filter isOld (lines h).

(** The file line [l] is what the hunk line [d] declares, up to trimming. *)
Definition agrees (d : DiffLine) (l : string) : bool :=
  String.eqb (trim l) (trim (content d)).

(** Every hunk line of [ds] that has a buffer line facing it in [suffix]
    agrees with that line. *)
Definition agreeAll (ds : list DiffLine) (suffix : list string) : bool :=
  forallb (fun p => agrees (fst p) (snd p)) (combine ds suffix).

(** The loop of [validateHunkContext], reading the buffer from its tail
    [suffix] that starts at index [originalIndex]. *)
Fixpoint validateSuffix (suffix : list string) (contextLines : list DiffLine)
         (originalIndex : nat) {struct contextLines} : option string :=
  match contextLines with
  | [] => None
  | diffLine :: rest =>
      match suffix with
      | [] => Some beyondEofError
      | originalLine :: suffix' =>
          if (isOld diffLine && negb (agrees diffLine originalLine))%bool
          then Some (mismatchError originalIndex (content diffLine) originalLine)
          else validateSuffix suffix' rest (S originalIndex)
      end
  end.

(** The two ways in which a hunk can fall outside the buffer, with the
    error [applyHunk] gives for each. *)
Inductive BoundsFault (buf : list string) (h : DiffHunk) (off : Z)
  : string -> Prop :=
| StartOutside :
    oldStart h + off - 1 < 0
    \/ Z.of_nat (List.length buf) <= oldStart h + off - 1 ->
    BoundsFault buf h off
                (outOfBoundsError (oldStart h + off - 1) (List.length buf))
| ExtendsBeyond :
    0 <= oldStart h + off - 1 < Z.of_nat (List.length buf) ->
    agreeAll (oldSide h) (skipn (Z.to_nat (oldStart h + off - 1)) buf) = true ->
    (List.length buf - Z.to_nat (oldStart h + off - 1)
     < List.length (oldSide h))%nat ->
    BoundsFault buf h off ("Context validation failed: " ++ beyondEofError).

(** Counts over the raw lines of a diff, as the specification words the
    size thresholds. *)
Definition isHunkHeader (line : string) : bool := startsWith line "@@".

Definition isChangedLine (line : string) : bool :=
  ((startsWith line "+" && negb (startsWith line "+++"))
   || (startsWith line "-" && negb (startsWith line "---")))%bool.

Definition countHunkHeaders (diffString : string) : nat :=
  List.length (filter isHunkHeader (split diffString)).

Definition countChangedLines (diffString : string) : nat :=
  List.length (filter isChangedLine (split diffString)).

(** [d] is a line of kind [t]. *)
Definition isKind (t : LineType) (d : DiffLine) : bool :=
  match t, type d with
  | LContext, LContext | LRemove, LRemove | LAdd, LAdd => true
  | _, _ => false
  end.

Definition countKind (t : LineType) (hl : list DiffLine) : nat :=
  List.length (filter (isKind t) hl).

(** What a hunk means for the part [old] of the file that starts at its
    first line: a context line keeps the file's line, a remove line drops
    it, an add line puts its text in front of what remains. *)
Fixpoint patch (hl : list DiffLine) (old : list string) : list string :=
  match hl with
  | [] => old
  | d :: rest =>
      match type d with
      | LContext =>
          match old with
          | o :: old' => o :: patch rest old'
          | [] => patch rest []
          end
      | LRemove => patch rest (tl old)
      | LAdd => content d :: patch rest old
      end
  end.

(** Every context line of [hl] that has a change after it is met with
    the cursor, starting at [idx], below the original length [len]. *)
Fixpoint ctxReached (len idx : nat) (hl : list DiffLine) : bool :=
  match hl with
  | [] => true
  | d :: rest =>
      match type d with
      | LContext =>
          if (idx <? len)%nat then ctxReached len (S idx) rest
          else forallb (isKind LContext) rest
      | LRemove => ctxReached len idx rest
      | LAdd => ctxReached len (S idx) rest
      end
  end.

(** The line holds one of the four substrings that [validateDiffSafety]
    looks for. *)
Definition isDenylisted (line : string) : bool :=
  (includes line "eval(" || includes line "exec("
   || includes line "rm -rf" || includes line "DELETE FROM")%bool.

(** The diff lines that [generateDiff] writes for one index, and for a
    range of indices; [unlines] ends each line with a newline. *)
Definition emitted (oldLine newLine : option string) : list string :=
  if sameLine oldLine newLine then [" " ++ orEmpty oldLine]
  else
    (match oldLine with Some o => [("-" ++ o)%string] | None => [] end
     ++ match newLine with Some n => [("+" ++ n)%string] | None => [] end)%list.

Definition bodyLines (a b : list string) (indices : list nat) : list string :=
  flat_map (fun i => emitted (nth_error a i) (nth_error b i)) indices.

Fixpoint unlines (ls : list string) : string :=
  match ls with
  | [] => ""
  | l :: rest => l ++ nl ++ unlines rest
  end.

(** What follows a number in a header does not start with a digit. *)
Definition notDigitNext (rest : string) : Prop :=
  match rest with
  | String c _ => isDigit c = false
  | EmptyString => True
  end.

(** The range of differing indices that [generateDiff] finds, and the
    window of lines, with its context, that it writes as a hunk. *)
Definition changeRange (T T' : string) : Z * Z :=
  findChanges (split T) (split T')
              (seq 0 (Nat.max (List.length (split T)) (List.length (split T'))))
              (-1) (-1).

Definition contextStartOf (T T' : string) : Z :=
  Z.max 0 (fst (changeRange T T') - MAX_CONTEXT_LINES).

Definition contextEndOf (T T' : string) : Z :=
  Z.min (Z.of_nat (Nat.max (List.length (split T)) (List.length (split T'))) - 1)
        (snd (changeRange T T') + MAX_CONTEXT_LINES).

Definition windowCount (T T' : string) : Z :=
  contextEndOf T T' - contextStartOf T T' + 1.

(** The hunk header for a window of [c] lines from line [s]. *)
Definition hunkHeaderText (s c : Z) : string :=
  "@@ -" ++ show s ++ "," ++ show c ++ " +" ++ show s ++ "," ++ show c ++ " @@".

(** A line without a newline that does not start a hunk. *)
Definition plainLine (l : string) : Prop :=
  includes l nl = false /\ startsWith l "@@" = false.

(** The hunk with the text of every line trimmed. *)
Definition trimLine (d : DiffLine) : DiffLine :=
  mkLine (type d) (trim (content d)).

Definition trimHunk (h : DiffHunk) : DiffHunk :=
  mkHunk (oldStart h) (oldLines h) (newStart h) (newLines h)
         (map trimLine (lines h)).

(** A diff of eight hunks, each replacing five lines: 80 changed lines. *)
Module Samples.

Definition hunkOfTen : string :=
  String.concat nl
    ("@@ -1,5 +1,5 @@" :: (repeat "-old line" 5 ++ repeat "+new line" 5)%list).

Definition eightHunks : string := String.concat nl (repeat hunkOfTen 8).

(** Two texts of 105 lines that differ in their first and last line. *)
Definition longOld : string := String.concat nl (repeat "x" 105).

Definition longNew : string :=
  String.concat nl ("y" :: repeat "x" 103 ++ ["y"])%list.

End Samples.

(* ================================================================== *)
(** ** Facts about the string primitives *)
(* ================================================================== *)

Lemma prefix_app (p rest : string) : String.prefix p (p ++ rest) = true.
Proof.
  induction p as [|c p IH]; simpl.
  - now destruct rest.
  - destruct (ascii_dec c c); [exact IH | congruence].
Qed.

Lemma includes_prefix (s p : string) : String.prefix p s = true -> includes s p = true.
Proof. intros H. destruct s; cbn [includes]; rewrite H; reflexivity. Qed.

Lemma includes_cons (c : ascii) (s p : string) :
  includes s p = true -> includes (String c s) p = true.
Proof. intros H. cbn [includes]. rewrite H. apply orb_true_r. Qed.

(** A string includes each of the pieces it is concatenated from. *)
Lemma includes_app (a p b : string) : includes (a ++ p ++ b) p = true.
Proof.
  induction a as [|c a IH].
  - change (includes (p ++ b) p = true). apply includes_prefix, prefix_app.
  - change (includes (String c (a ++ p ++ b)) p = true). now apply includes_cons.
Qed.

Lemma includes_app_r (a s p : string) :
  includes s p = true -> includes (a ++ s) p = true.
Proof.
  intros H. induction a as [|c a IH]; [exact H|].
  change (includes (String c (a ++ s)) p = true). now apply includes_cons.
Qed.

Lemma prefix_app_l (p t b : string) :
  String.prefix p t = true -> String.prefix p (t ++ b) = true.
Proof.
  revert t. induction p as [|x p IHp]; intros t H.
  - now destruct (t ++ b).
  - destruct t as [|y t]; [discriminate|].
    simpl in *. destruct (ascii_dec x y); [now apply IHp|discriminate].
Qed.

Lemma includes_app_l (s b p : string) :
  includes s p = true -> includes (s ++ b) p = true.
Proof.
  induction s as [|c s IH]; intros H.
  - destruct p; [now destruct b|discriminate].
  - cbn [includes] in H. apply orb_true_iff in H. destruct H as [H|H].
    + apply includes_prefix. now apply prefix_app_l.
    + change (includes (String c (s ++ b)) p = true).
      apply includes_cons. now apply IH.
Qed.

Lemma append_assoc (a b c : string) : (a ++ b) ++ c = a ++ (b ++ c).
Proof. induction a; simpl; congruence. Qed.

Lemma append_inv_head (a b c : string) : a ++ b = a ++ c -> b = c.
Proof. induction a; simpl; intros H; [exact H|]. inversion H. auto. Qed.

Lemma prefix_cons (d c : ascii) (p r : string) :
  String.prefix (String d p) (String c r)
  = (Ascii.eqb d c && String.prefix p r)%bool.
Proof.
  cbn [String.prefix]. destruct (ascii_dec d c) as [->|n].
  - now rewrite Ascii.eqb_refl.
  - apply Ascii.eqb_neq in n. now rewrite n.
Qed.


(** [line.includes('\n')] fails exactly when [split] leaves the line whole. *)
Lemma includes_nl_cons (c : ascii) (s : string) :
  includes (String c s) nl = false ->
  Ascii.eqb c NL = false /\ includes s nl = false.
Proof.
  simpl. intros H. apply orb_false_iff in H. destruct H as [H1 H2].
  split; [|exact H2].
  destruct (ascii_dec NL c) as [<-|n].
  - now destruct s.
  - apply Ascii.eqb_neq. congruence.
Qed.

Lemma split_line (a b : string) :
  includes a nl = false -> split (a ++ nl ++ b) = a :: split b.
Proof.
  induction a as [|c a IH]; intros H.
  - reflexivity.
  - apply includes_nl_cons in H. destruct H as [Hc Ha].
    simpl. rewrite Hc. unfold nl in IH. simpl in IH. now rewrite (IH Ha).
Qed.

Lemma split_not_nil (s : string) : split s <> [].
Proof.
  induction s as [|c s IH]; simpl; [discriminate|].
  destruct (Ascii.eqb c NL); [discriminate|].
  destruct (split s); [contradiction|discriminate].
Qed.


(* ================================================================== *)
(** ** Facts about the parser *)
(* ================================================================== *)

Lemma parseBody_run (expectedLines : Z) (rest : list string) :
  forall i count hunkLines next,
    parseBody expectedLines rest i count = (hunkLines, next) ->
    exists consumed, BodyRun expectedLines rest i count hunkLines next consumed.
Proof.
  induction rest as [|line rest IH]; intros i count hunkLines next H; simpl in H.
  - inversion H; subst. exists []. split; simpl; auto; try lia. congruence.
  - destruct (Z.of_nat count <? expectedLines) eqn:Hc; simpl in H.
    2:{ inversion H; subst. exists []. apply Z.ltb_ge in Hc.
        split; simpl; auto; try lia; congruence. }
    apply Z.ltb_lt in Hc.
    destruct (isBoundary line) eqn:Hb.
    { inversion H; subst. exists [].
      split; simpl; auto; try lia; try congruence.
      right; left. exists line. auto. }
    destruct (parseBody expectedLines rest (S i) (S count)) as [more n] eqn:Hrec.
    inversion H; subst. clear H.
    destruct (IH _ _ _ _ Hrec) as [consumed R]. destruct R.
    exists (line :: consumed). split; simpl.
    + now f_equal.
    + lia.
    + now f_equal.
    + now constructor.
    + intros _. destruct consumed as [|x xs].
      * simpl. lia.
      * assert (x :: xs <> []) as Hne by discriminate.
        specialize (run_below0 Hne). simpl in *. lia.
    + destruct run_stop0 as [Hs|[Hs|Hs]]; auto.
      right; right. lia.
Qed.

Lemma parseHunk_next (lines : list string) (i : nat) (h : DiffHunk) (next : nat) :
  parseHunk lines i = Ok (h, next) -> (i < next)%nat.
Proof.
  unfold parseHunk. intros H.
  destruct (nth_error lines i); [|discriminate].
  destruct (Header.matchHeader s) as [[[[g1 g2] g3] g4]|]; [|discriminate].
  destruct (_ || _)%bool; [discriminate|].
  destruct (parseBody _ _ _ _) as [hl n] eqn:Hb.
  inversion H; subst.
  destruct (parseBody_run _ _ _ _ _ _ Hb) as [consumed R].
  destruct R. lia.
Qed.

(** The fuel that [parseDiff] passes is enough: the parser is total. *)
Lemma parseDiffLoop_total (lines : list string) :
  forall fuel i hunks,
    (List.length lines - i < fuel)%nat ->
    exists r, parseDiffLoop fuel lines i hunks = Some r.
Proof.
  induction fuel as [|fuel IH]; intros i hunks Hf; [lia|].
  simpl. destruct (nth_error lines i) as [line|] eqn:Hn; [|eauto].
  assert (i < List.length lines)%nat as Hi
      by (apply nth_error_Some; congruence).
  destruct (startsWith line "---"); [apply IH; lia|].
  destruct (startsWith line "+++"); [apply IH; lia|].
  destruct (startsWith line "@@"); [|apply IH; lia].
  destruct (parseHunk lines i) as [[h next]|e] eqn:Hp; [|eauto].
  apply parseHunk_next in Hp. apply IH. lia.
Qed.

Lemma parseDiff_total (diffString : string) :
  parseDiffLoop (S (List.length (split diffString))) (split diffString) 0 []
  = Some (parseDiff diffString).
Proof.
  unfold parseDiff.
  destruct (parseDiffLoop_total (split diffString)
              (S (List.length (split diffString))) 0 []) as [r Hr]; [lia|].
  now rewrite Hr.
Qed.

(** Without hunk headers the scan runs to the end and adds no hunk. *)
Lemma parseDiffLoop_no_header (lines : list string) :
  (forall line, In line lines -> startsWith line "@@" = false) ->
  forall fuel i hunks,
    (List.length lines - i < fuel)%nat ->
    parseDiffLoop fuel lines i hunks = Some (Ok hunks).
Proof.
  intros Hno. induction fuel as [|fuel IH]; intros i hunks Hf; [lia|].
  simpl. destruct (nth_error lines i) as [line|] eqn:Hn; [|reflexivity].
  assert (i < List.length lines)%nat as Hi
      by (apply nth_error_Some; congruence).
  rewrite (Hno line (nth_error_In _ _ Hn)).
  destruct (startsWith line "---"); [apply IH; lia|].
  destruct (startsWith line "+++"); apply IH; lia.
Qed.

Lemma parseDiff_no_header (diffString : string) :
  (forall line, In line (split diffString) -> startsWith line "@@" = false) ->
  parseDiff diffString = Ok [].
Proof.
  intros Hno. unfold parseDiff.
  rewrite (parseDiffLoop_no_header _ Hno); [reflexivity|lia].
Qed.

(* ================================================================== *)
(** ** Facts about validation and the apply loop *)
(* ================================================================== *)

Lemma skipn_cons_nth (A : Type) (l : list A) :
  forall i x, nth_error l i = Some x -> skipn i l = x :: skipn (S i) l.
Proof.
  induction l as [|y l IH]; intros [|i] x H; simpl in *; try discriminate.
  - now inversion H.
  - now apply IH.
Qed.

Lemma validateLoop_suffix (buf : list string) (ds : list DiffLine) :
  forall i, validateLoop buf ds i = validateSuffix (skipn i buf) ds i.
Proof.
  induction ds as [|d ds IH]; intros i; simpl; [reflexivity|].
  destruct (nth_error buf i) as [l|] eqn:Hn.
  - rewrite (skipn_cons_nth _ _ _ _ Hn). unfold agrees. rewrite IH.
    reflexivity.
  - rewrite skipn_all2; [reflexivity|]. now apply nth_error_None.
Qed.

Lemma oldSide_isOld (h : DiffHunk) (d : DiffLine) :
  In d (oldSide h) -> isOld d = true.
Proof. unfold oldSide. intros H. now apply filter_In in H. Qed.

(** A disagreement somewhere means that the walk stops at the first one
    and reports it. *)
Lemma validateSuffix_mismatch (ds : list DiffLine) :
  forall suffix i k d l,
    (forall x, In x ds -> isOld x = true) ->
    nth_error ds k = Some d ->
    nth_error suffix k = Some l ->
    agrees d l = false ->
    exists j d' l',
      (j <= k)%nat
      /\ nth_error ds j = Some d'
      /\ nth_error suffix j = Some l'
      /\ agrees d' l' = false
      /\ agreeAll (firstn j ds) suffix = true
      /\ validateSuffix suffix ds i = Some (mismatchError (i + j) (content d') l').
Proof.
  induction ds as [|d0 ds IH]; intros suffix i k d l Hold Hd Hl Hne.
  - destruct k; discriminate.
  - destruct suffix as [|l0 suffix]; [destruct k; discriminate|].
    assert (isOld d0 = true) as Hd0 by (apply Hold; now left).
    destruct (agrees d0 l0) eqn:Ha.
    + destruct k as [|k].
      { simpl in Hd, Hl. inversion Hd; inversion Hl; subst. congruence. }
      simpl in Hd, Hl.
      assert (forall x, In x ds -> isOld x = true) as Hold'
          by (intros x Hx; apply Hold; now right).
      destruct (IH suffix (S i) k d l Hold' Hd Hl Hne)
        as (j & d' & l' & Hj & Hdj & Hlj & Hnej & Hbefore & Hres).
      exists (S j), d', l'. simpl. rewrite Hd0, Ha. simpl.
      repeat split; auto; try lia.
      * unfold agreeAll in *. simpl. now rewrite Ha.
      * rewrite Hres. do 2 f_equal. lia.
    + exists 0%nat, d0, l0. simpl. rewrite Hd0, Ha. simpl.
      repeat split; auto; try lia.
      do 2 f_equal. lia.
Qed.

(** When every facing pair agrees and the hunk has more old-side lines
    than the buffer has left, the walk runs off the end. *)
Lemma validateSuffix_beyond (ds : list DiffLine) :
  forall suffix i,
    agreeAll ds suffix = true ->
    (List.length suffix < List.length ds)%nat ->
    validateSuffix suffix ds i = Some beyondEofError.
Proof.
  induction ds as [|d ds IH]; intros suffix i Hall Hlen; simpl in *; [lia|].
  destruct suffix as [|l suffix]; [reflexivity|].
  unfold agreeAll in Hall. simpl in Hall.
  apply andb_true_iff in Hall. destruct Hall as [Ha Hall].
  rewrite Ha. rewrite andb_false_r. apply IH; [exact Hall|simpl in Hlen; lia].
Qed.

(** When every old-side line has an agreeing buffer line, validation
    succeeds. *)
Lemma validateSuffix_ok (ds : list DiffLine) :
  forall suffix i,
    agreeAll ds suffix = true ->
    (List.length ds <= List.length suffix)%nat ->
    validateSuffix suffix ds i = None.
Proof.
  induction ds as [|d ds IH]; intros suffix i Hall Hlen; simpl in *; [reflexivity|].
  destruct suffix as [|l suffix]; [simpl in Hlen; lia|].
  unfold agreeAll in Hall. simpl in Hall.
  apply andb_true_iff in Hall. destruct Hall as [Ha Hall].
  rewrite Ha. rewrite andb_false_r. apply IH; [exact Hall|simpl in Hlen; lia].
Qed.

(** The loop of [applyCodeDiff] passes over a prefix of hunks that all
    apply, counting them. *)
Lemma applyLoop_app (pre : list DiffHunk) :
  forall rest buf off buf' off' applied total warns,
    applyAll buf off pre = Some (buf', off') ->
    applyLoop (pre ++ rest)%list buf off applied total warns
    = applyLoop rest buf' off' (applied + List.length pre) total warns.
Proof.
  induction pre as [|h pre IH]; intros rest buf off buf' off' applied total warns H.
  - simpl in *. inversion H; subst. f_equal. lia.
  - simpl in *. destruct (applyHunk buf h off) as [[b d]|e]; [|discriminate].
    rewrite (IH _ _ _ _ _ _ _ _ H). f_equal. lia.
Qed.

(** The result of [applyCodeDiff] at the first hunk that is refused. *)
Lemma applyCodeDiff_stops_at (T D : string) (pre post : list DiffHunk)
      (h : DiffHunk) (buf : list string) (off : Z) (e : string) :
  parseDiff D = Ok (pre ++ h :: post)%list ->
  applyAll (split T) 0 pre = Some (buf, off) ->
  applyHunk buf h off = Err e ->
  applyCodeDiff T D
  = hunkFailure (S (List.length pre)) (List.length (pre ++ h :: post)%list) e.
Proof.
  intros Hp Hpre Hh. unfold applyCodeDiff. rewrite Hp.
  destruct (pre ++ h :: post)%list as [|x xs] eqn:Hl.
  { destruct pre; discriminate. }
  rewrite <- Hl.
  rewrite (applyLoop_app pre (h :: post) _ _ _ _ _ _ _ Hpre).
  simpl. rewrite Hh. reflexivity.
Qed.

(** When all hunks apply, the result is the joined final buffer. *)
Lemma applyCodeDiff_all_applied (T D : string) (hunks : list DiffHunk)
      (buf : list string) (off : Z) :
  parseDiff D = Ok hunks ->
  hunks <> [] ->
  applyAll (split T) 0 hunks = Some (buf, off) ->
  applyCodeDiff T D
  = mkResult true (Some (join buf)) None (List.length hunks) (List.length hunks) [].
Proof.
  intros Hp Hne Hall. unfold applyCodeDiff. rewrite Hp.
  destruct hunks as [|x xs] eqn:Hl; [congruence|].
  rewrite <- Hl in *.
  rewrite <- (app_nil_r hunks) at 1.
  rewrite (applyLoop_app hunks [] _ _ _ _ _ _ _ Hall). reflexivity.
Qed.

(** [applyHunk] in terms of its three outcomes. *)
Lemma applyHunk_outside (buf : list string) (h : DiffHunk) (off : Z) :
  oldStart h + off - 1 < 0 \/ Z.of_nat (List.length buf) <= oldStart h + off - 1 ->
  applyHunk buf h off
  = Err (outOfBoundsError (oldStart h + off - 1) (List.length buf)).
Proof.
  intros H. unfold applyHunk.
  destruct (_ || _)%bool eqn:Hb; [reflexivity|].
  apply orb_false_iff in Hb. destruct Hb as [H1 H2].
  apply Z.ltb_ge in H1. rewrite Z.geb_leb in H2. apply Z.leb_gt in H2. lia.
Qed.

Lemma applyHunk_inside (buf : list string) (h : DiffHunk) (off : Z) :
  0 <= oldStart h + off - 1 < Z.of_nat (List.length buf) ->
  applyHunk buf h off
  = match validateSuffix (skipn (Z.to_nat (oldStart h + off - 1)) buf)
                         (oldSide h) (Z.to_nat (oldStart h + off - 1)) with
    | Some e => Err ("Context validation failed: " ++ e)
    | None => Ok (applyLines (List.length buf) (lines h)
                             (Z.to_nat (oldStart h + off - 1)) buf 0)
    end.
Proof.
  intros H. unfold applyHunk.
  destruct (_ || _)%bool eqn:Hb.
  - apply orb_true_iff in Hb. destruct Hb as [Hb|Hb].
    + apply Z.ltb_lt in Hb. lia.
    + rewrite Z.geb_leb in Hb. apply Z.leb_le in Hb. lia.
  - unfold validateHunkContext. rewrite validateLoop_suffix. reflexivity.
Qed.

(* ================================================================== *)
(** ** Context validation (4.4) and the apply orchestrator (4.6) *)
(* ================================================================== *)

Ltac find_piece :=
  repeat first [ apply includes_prefix, prefix_app | apply includes_app_r ].

Lemma mismatchError_shows (i : nat) (expected got : string) :
  includes (mismatchError i expected got) (showN (S i)) = true
  /\ includes (mismatchError i expected got) (trim expected) = true
  /\ includes (mismatchError i expected got) (trim got) = true.
Proof. unfold mismatchError. repeat split; find_piece. Qed.

(** Whatever the inputs, content is returned only with [success = true],
    and then every hunk has been applied. *)
Lemma applyLoop_sound (hunks : list DiffHunk) :
  forall buf off applied total warns,
    let r := applyLoop hunks buf off applied total warns in
    (success r = false -> newContent r = None)
    /\ (success r = true -> appliedHunks r = (applied + List.length hunks)%nat).
Proof.
  induction hunks as [|h hunks IH]; intros buf off applied total warns; simpl.
  - split; [discriminate|intros _; lia].
  - destruct (applyHunk buf h off) as [[b d]|e]; simpl.
    + destruct (IH b (off + d) (S applied) total warns) as [H1 H2].
      split; [exact H1|]. intros Hs. rewrite (H2 Hs). lia.
    + split; [reflexivity|discriminate].
Qed.

Lemma applyLoop_totalHunks (hunks : list DiffHunk) :
  forall buf off applied total warns,
    totalHunks (applyLoop hunks buf off applied total warns) = total.
Proof.
  induction hunks as [|h hunks IH]; intros buf off applied total warns; simpl.
  - reflexivity.
  - destruct (applyHunk buf h off) as [[b d]|e]; [apply IH|reflexivity].
Qed.

Lemma applyCodeDiff_sound (T D : string) :
  (success (applyCodeDiff T D) = false -> newContent (applyCodeDiff T D) = None)
  /\ (success (applyCodeDiff T D) = true ->
      appliedHunks (applyCodeDiff T D) = totalHunks (applyCodeDiff T D)).
Proof.
  unfold applyCodeDiff.
  destruct (parseDiff D) as [hunks|e]; [|split; [reflexivity|discriminate]].
  destruct hunks as [|h hs] eqn:Hl; [split; [reflexivity|discriminate]|].
  rewrite <- Hl.
  destruct (applyLoop_sound hunks (split T) 0 0%nat (List.length hunks) [])
    as [H1 H2].
  split; [exact H1|]. intros Hs. rewrite (H2 Hs).
  now rewrite applyLoop_totalHunks.
Qed.

(** A hunk that starts on the last line, keeps it as context and then adds
    lines is accepted: the added lines follow the last line. *)
Lemma applyLines_adds (adds : list string) :
  forall len idx res delta,
    (List.length res <= idx)%nat ->
    applyLines len (map (mkLine LAdd) adds) idx res delta
    = ((res ++ adds)%list, delta + Z.of_nat (List.length adds)).
Proof.
  induction adds as [|a adds IH]; intros len idx res delta Hlen; simpl.
  - rewrite app_nil_r. f_equal. lia.
  - unfold spliceInsert. rewrite firstn_all2, skipn_all2 by exact Hlen.
    rewrite IH by (rewrite length_app; simpl; lia).
    rewrite <- app_assoc. simpl. f_equal. lia.
Qed.

Lemma oldSide_adds (adds : list string) :
  filter isOld (map (mkLine LAdd) adds) = [].
Proof. induction adds; simpl; auto. Qed.

Lemma agrees_refl (t : LineType) (l : string) : agrees (mkLine t l) l = true.
Proof. unfold agrees. apply String.eqb_refl. Qed.

Lemma anchored_append_accepted (buf adds : list string) (l : string)
      (c1 s2 c2 : Z) :
  nth_error buf (List.length buf - 1) = Some l ->
  applyHunk buf (mkHunk (Z.of_nat (List.length buf)) c1 s2 c2
                        (mkLine LContext l :: map (mkLine LAdd) adds)) 0
  = Ok ((buf ++ adds)%list, Z.of_nat (List.length adds)).
Proof.
  intros Hl.
  assert (List.length buf - 1 < List.length buf)%nat as Hn
      by (apply nth_error_Some; congruence).
  rewrite applyHunk_inside by (simpl; lia).
  cbn [oldStart lines oldSide]. unfold oldSide. cbn [lines filter isOld type].
  rewrite oldSide_adds.
  replace (Z.to_nat (Z.of_nat (List.length buf) + 0 - 1))
    with (List.length buf - 1)%nat by lia.
  rewrite (skipn_cons_nth _ _ _ _ Hl). cbn [validateSuffix isOld type].
  rewrite agrees_refl. cbn [negb andb applyLines type].
  destruct (Nat.ltb_spec (List.length buf - 1) (List.length buf)); [|lia].
  rewrite applyLines_adds by lia. reflexivity.
Qed.

(** The offset that [applyHunk] returns is the change in the number of
    lines, and the running offset is the sum of these changes. *)
Lemma applyLines_delta (len : nat) (hl : list DiffLine) :
  forall idx res delta res' delta',
    applyLines len hl idx res delta = (res', delta') ->
    Z.of_nat (List.length res') - delta' = Z.of_nat (List.length res) - delta.
Proof.
  induction hl as [|d hl IH]; intros idx res delta res' delta' H; simpl in H.
  - inversion H; subst. reflexivity.
  - destruct (type d).
    + destruct (idx <? len)%nat; apply IH in H; exact H.
    + destruct (Nat.ltb_spec idx (List.length res)) as [Hlt|Hge];
        apply IH in H; [|exact H].
      rewrite H. unfold spliceRemove.
      rewrite length_app, length_firstn, length_skipn. lia.
    + apply IH in H. rewrite H. unfold spliceInsert.
      rewrite length_app. simpl. rewrite length_firstn, length_skipn. lia.
Qed.

Lemma applyHunk_delta (buf buf' : list string) (h : DiffHunk) (off delta : Z) :
  applyHunk buf h off = Ok (buf', delta) ->
  delta = Z.of_nat (List.length buf') - Z.of_nat (List.length buf).
Proof.
  unfold applyHunk. destruct (_ || _)%bool; [discriminate|].
  destruct (validateHunkContext _ _ _); [discriminate|].
  intros H. inversion H as [Hl]. apply applyLines_delta in Hl. lia.
Qed.

Lemma applyAll_offset (hs : list DiffHunk) :
  forall buf off buf' off',
    applyAll buf off hs = Some (buf', off') ->
    off' - off = Z.of_nat (List.length buf') - Z.of_nat (List.length buf).
Proof.
  induction hs as [|h hs IH]; intros buf off buf' off' H; simpl in H.
  - inversion H; subst. lia.
  - destruct (applyHunk buf h off) as [[b d]|e] eqn:Hh; [|discriminate].
    apply applyHunk_delta in Hh. apply IH in H. lia.
Qed.

(** The situation of the next four properties: the diff [D] parses to the
    hunks [pre ++ h :: post]; applied to the lines of [T], the hunks of
    [pre] are all accepted and leave the buffer [buf] and the running
    offset [off]; [h] is the hunk that [applyCodeDiff] turns to next. *)
Section AtHunk.

Variables (T D : string) (pre post : list DiffHunk) (h : DiffHunk).
Variables (buf : list string) (off : Z).

Hypothesis parsed : parseDiff D = Ok (pre ++ h :: post)%list.
Hypothesis reached : applyAll (split T) 0 pre = Some (buf, off).

(** C1. Before a hunk touches the buffer, its context and remove lines are
    compared in order, trimmed, with the buffer lines from the hunk's start
    line shifted by the offset of the hunks applied before it, which is the
    number of lines those hunks have added to the buffer.  If the
    [k]-th of them disagrees with the buffer line facing it, the walk stops
    at the first disagreement [j <= k], and [applyCodeDiff] returns a
    failure, without content, whose error message includes the 1-based
    number of that line, the trimmed text the patch declares and the
    trimmed text of the file. *)
Theorem context_mismatch_reported (k : nat) (d : DiffLine) (l : string) :
  0 <= oldStart h + off - 1 ->
  nth_error (oldSide h) k = Some d ->
  nth_error buf (Z.to_nat (oldStart h + off - 1) + k) = Some l ->
  agrees d l = false ->
  off = Z.of_nat (List.length buf) - Z.of_nat (List.length (split T))
  /\ exists (j : nat) (d' : DiffLine) (l' msg : string),
    (j <= k)%nat
    /\ nth_error (oldSide h) j = Some d'
    /\ nth_error buf (Z.to_nat (oldStart h + off - 1) + j) = Some l'
    /\ agrees d' l' = false
    /\ agreeAll (firstn j (oldSide h))
                (skipn (Z.to_nat (oldStart h + off - 1)) buf) = true
    /\ applyCodeDiff T D
       = hunkFailure (S (List.length pre)) (List.length (pre ++ h :: post)%list)
           ("Context validation failed: "
            ++ mismatchError (Z.to_nat (oldStart h + off - 1) + j) (content d') l')
    /\ success (applyCodeDiff T D) = false
    /\ newContent (applyCodeDiff T D) = None
    /\ error (applyCodeDiff T D) = Some msg
    /\ includes msg (showN (S (Z.to_nat (oldStart h + off - 1) + j))) = true
    /\ includes msg (trim (content d')) = true
    /\ includes msg (trim l') = true.
Proof.
  intros Hlo Hd Hl Hne.
  split; [pose proof (applyAll_offset _ _ _ _ _ reached); lia|].
  set (start := Z.to_nat (oldStart h + off - 1)) in *.
  assert (0 <= oldStart h + off - 1 < Z.of_nat (List.length buf)) as Hin.
  { assert (start + k < List.length buf)%nat
      by (apply nth_error_Some; congruence).
    unfold start in *. lia. }
  rewrite <- nth_error_skipn in Hl.
  destruct (validateSuffix_mismatch (oldSide h) (skipn start buf) start k d l
              (oldSide_isOld h) Hd Hl Hne)
    as (j & d' & l' & Hj & Hdj & Hlj & Hnej & Hbefore & Hres).
  assert (applyHunk buf h off
          = Err ("Context validation failed: "
                 ++ mismatchError (start + j) (content d') l')) as Hh.
  { rewrite (applyHunk_inside _ _ _ Hin). fold start. now rewrite Hres. }
  pose proof (applyCodeDiff_stops_at T D pre post h buf off _ parsed reached Hh)
    as Hr.
  destruct (mismatchError_shows (start + j) (content d') l') as (S1 & S2 & S3).
  exists j, d', l'. eexists.
  rewrite nth_error_skipn in Hlj.
  rewrite Hr. unfold hunkFailure. cbn [success newContent error].
  repeat split; try eassumption; try reflexivity; find_piece; assumption.
Qed.

(** C2. When the hunks before some hunk of a diff all apply and that hunk
    is refused, [applyCodeDiff] returns [success = false], counts exactly
    the hunks before the refused one as applied, and returns no content. *)
Theorem failure_counts_prior_hunks (e : string) :
  applyHunk buf h off = Err e ->
  success (applyCodeDiff T D) = false
  /\ appliedHunks (applyCodeDiff T D) = List.length pre
  /\ totalHunks (applyCodeDiff T D) = List.length (pre ++ h :: post)%list
  /\ newContent (applyCodeDiff T D) = None
  /\ error (applyCodeDiff T D)
     = Some ("Failed to apply hunk " ++ showN (S (List.length pre)) ++ ": " ++ e).
Proof.
  intros Hh.
  rewrite (applyCodeDiff_stops_at T D pre post h buf off e parsed reached Hh).
  unfold hunkFailure. simpl. repeat split.
Qed.

(** C5. A hunk whose shifted start line lies outside the buffer is refused
    with the error that names the start line and the file bounds; a hunk
    whose context walk runs off the end of the buffer is refused with the
    error that it extends beyond the end of the file.  Both are ordinary
    failure results (the functions are total: no read is made outside the
    buffer), the two errors differ from each other, and neither is the
    error of a content mismatch. *)
Theorem bounds_faults_reported (e : string) :
  BoundsFault buf h off e ->
  applyCodeDiff T D
  = hunkFailure (S (List.length pre)) (List.length (pre ++ h :: post)%list) e
  /\ (e = outOfBoundsError (oldStart h + off - 1) (List.length buf)
      \/ e = "Context validation failed: " ++ beyondEofError)
  /\ (forall i expected got,
         e <> "Context validation failed: " ++ mismatchError i expected got)
  /\ (forall a n,
         outOfBoundsError a n <> "Context validation failed: " ++ beyondEofError).
Proof.
  intros Hf.
  assert (applyHunk buf h off = Err e) as Hh.
  { destruct Hf as [Hout|Hin Hall Hlen].
    - now apply applyHunk_outside.
    - rewrite (applyHunk_inside _ _ _ Hin).
      rewrite validateSuffix_beyond; [reflexivity|exact Hall|].
      rewrite length_skipn. exact Hlen. }
  split; [exact (applyCodeDiff_stops_at T D pre post h buf off e parsed reached Hh)|].
  split; [destruct Hf as [Hout|Hin Hall Hlen]; auto|].
  split.
  - intros i expected got.
    destruct Hf as [Hout|Hin Hall Hlen]; unfold outOfBoundsError, mismatchError.
    + simpl. discriminate.
    + intros Heq. apply append_inv_head in Heq. simpl in Heq. discriminate.
  - intros a n. unfold outOfBoundsError. simpl. discriminate.
Qed.

(** C10, amended. A hunk whose shifted start line exceeds the number of
    lines of the buffer, such as a hunk of added lines only that starts at
    line n + 1, is refused with the out-of-bounds error, so no hunk that
    starts after the last line inserts anything. *)
Theorem hunk_start_past_end_rejected :
  Z.of_nat (List.length buf) < oldStart h + off ->
  applyHunk buf h off
  = Err (outOfBoundsError (oldStart h + off - 1) (List.length buf))
  /\ applyCodeDiff T D
     = hunkFailure (S (List.length pre)) (List.length (pre ++ h :: post)%list)
         (outOfBoundsError (oldStart h + off - 1) (List.length buf))
  /\ success (applyCodeDiff T D) = false
  /\ newContent (applyCodeDiff T D) = None.
Proof.
  intros Hgt.
  assert (applyHunk buf h off
          = Err (outOfBoundsError (oldStart h + off - 1) (List.length buf))) as Hh
      by (apply applyHunk_outside; lia).
  split; [exact Hh|].
  rewrite (applyCodeDiff_stops_at T D pre post h buf off _ parsed reached Hh).
  repeat split.
Qed.

End AtHunk.

Lemma context_mismatch_reported_witness :
  let T := "x
y
" in
  let D := "@@ -1 +1 @@
 z" in
  parseDiff D = Ok [mkHunk 1 1 1 1 [mkLine LContext "z"]]
  /\ agrees (mkLine LContext "z") "x" = false
  /\ success (applyCodeDiff T D) = false
  /\ exists msg, error (applyCodeDiff T D) = Some msg
                 /\ includes msg "1" = true
                 /\ includes msg "z" = true
                 /\ includes msg "x" = true.
Proof.
  intros T D.
  assert (parseDiff D = Ok ([] ++ mkHunk 1 1 1 1 [mkLine LContext "z"] :: [])%list)
    as Hp by reflexivity.
  assert (agrees (mkLine LContext "z") "x" = false) as Hne by reflexivity.
  split; [exact Hp|]. split; [exact Hne|].
  destruct (context_mismatch_reported T D [] [] _ ["x"; "y"; ""] 0 Hp eq_refl
              0%nat (mkLine LContext "z") "x")
    as (_ & j & d' & l' & msg & Hj & Hd & Hl & _ & _ & _ & Hs & _ & He & I1 & I2 & I3);
    [simpl; lia | reflexivity | reflexivity | exact Hne |].
  split; [exact Hs|].
  assert (j = 0%nat) as -> by lia.
  simpl in Hd, Hl. inversion Hd; inversion Hl; subst d' l'.
  exists msg. repeat split; assumption.
Defined.

Lemma failure_counts_prior_hunks_witness :
  let T := "a
b
c" in
  let D := "@@ -1 +1 @@
-a
+A
@@ -3 +3 @@
-x
+C" in
  applyAll (split T) 0 [mkHunk 1 1 1 1 [mkLine LRemove "a"; mkLine LAdd "A"]]
  = Some (["A"; "b"; "c"], 0)
  /\ success (applyCodeDiff T D) = false
  /\ appliedHunks (applyCodeDiff T D) = 1%nat
  /\ totalHunks (applyCodeDiff T D) = 2%nat
  /\ newContent (applyCodeDiff T D) = None.
Proof.
  intros T D.
  assert (applyAll (split T) 0
            [mkHunk 1 1 1 1 [mkLine LRemove "a"; mkLine LAdd "A"]]
          = Some (["A"; "b"; "c"], 0)) as Hpre by reflexivity.
  split; [exact Hpre|].
  destruct (failure_counts_prior_hunks T D
              [mkHunk 1 1 1 1 [mkLine LRemove "a"; mkLine LAdd "A"]] []
              (mkHunk 3 1 3 1 [mkLine LRemove "x"; mkLine LAdd "C"])
              ["A"; "b"; "c"] 0 eq_refl Hpre
              ("Context validation failed: " ++ mismatchError 2 "x" "c")
              eq_refl)
    as (H1 & H2 & H3 & H4 & _).
  repeat split; assumption.
Defined.

Lemma bounds_faults_reported_witness :
  (let T := "a" in
   let D := "@@ -5 +5 @@
-a
+b" in
   error (applyCodeDiff T D)
   = Some "Failed to apply hunk 1: Hunk start line 5 is outside file bounds (1-1)")
  /\
  (let T := "a" in
   let D := "@@ -1 +1 @@
-a
-b" in
   error (applyCodeDiff T D)
   = Some "Failed to apply hunk 1: Context validation failed: Hunk extends beyond end of file").
Proof.
  split; intros T D.
  - assert (BoundsFault ["a"]
              (mkHunk 5 1 5 1 [mkLine LRemove "a"; mkLine LAdd "b"]) 0
              (outOfBoundsError 4 1)) as Hf.
    { apply (StartOutside ["a"]
               (mkHunk 5 1 5 1 [mkLine LRemove "a"; mkLine LAdd "b"]) 0).
      simpl. lia. }
    destruct (bounds_faults_reported T D [] [] _ ["a"] 0 eq_refl eq_refl _ Hf)
      as [Hr _].
    rewrite Hr. reflexivity.
  - assert (BoundsFault ["a"]
              (mkHunk 1 1 1 1 [mkLine LRemove "a"; mkLine LRemove "b"]) 0
              ("Context validation failed: " ++ beyondEofError)) as Hf.
    { apply ExtendsBeyond; [simpl; lia|reflexivity|simpl; lia]. }
    destruct (bounds_faults_reported T D [] [] _ ["a"] 0 eq_refl eq_refl _ Hf)
      as [Hr _].
    rewrite Hr. reflexivity.
Defined.

(** C10, as stated, fails: a hunk can place content after the last
    existing line.  On the one-line text [a], the hunk that keeps line 1
    as context and adds [b] is applied, and [b] follows the last line. *)
Lemma append_after_last_line_counterexample :
  ~ (forall (T D c : string),
        newContent (applyCodeDiff T D) = Some c ->
        forall extra, extra <> [] -> split c <> (split T ++ extra)%list).
Proof.
  intros H.
  apply (H "a" "@@ -1 +1,2 @@
 a
+b" "a
b" eq_refl ["b"]); [discriminate|reflexivity].
Qed.


Lemma hunk_start_past_end_rejected_witness :
  let T := "a" in
  let D := "@@ -2 +2 @@
+b" in
  parseDiff D = Ok [mkHunk 2 1 2 1 [mkLine LAdd "b"]]
  /\ Z.of_nat (List.length (split T)) < 2 + 0
  /\ error (applyCodeDiff T D)
     = Some "Failed to apply hunk 1: Hunk start line 2 is outside file bounds (1-1)"
  /\ newContent (applyCodeDiff T D) = None.
Proof.
  intros T D.
  assert (Z.of_nat (List.length (split T)) < 2 + 0) as Hgt by (simpl; lia).
  split; [reflexivity|]. split; [exact Hgt|].
  destruct (hunk_start_past_end_rejected T D [] []
              (mkHunk 2 1 2 1 [mkLine LAdd "b"]) ["a"] 0 eq_refl eq_refl Hgt)
    as (_ & Hr & _ & Hc).
  split; [rewrite Hr; reflexivity|exact Hc].
Defined.

(** C7. A diff whose parse gives no hunk, as does every diff without a
    line that starts with [@@], parses successfully to the empty sequence,
    and [applyCodeDiff] refuses it: no valid hunks found, with zero hunks
    applied out of zero. *)
Theorem empty_hunk_set_rejected (T D : string) :
  (forall line, In line (split D) -> startsWith line "@@" = false)
  \/ parseDiff D = Ok [] ->
  parseDiff D = Ok []
  /\ applyCodeDiff T D = mkResult false None (Some noHunksError) 0 0 [].
Proof.
  intros H.
  assert (parseDiff D = Ok []) as Hp
      by (destruct H as [H|H]; [now apply parseDiff_no_header|exact H]).
  split; [exact Hp|]. unfold applyCodeDiff. now rewrite Hp.
Qed.

Lemma empty_hunk_set_rejected_witness :
  parseDiff "just some text
without a header" = Ok []
  /\ applyCodeDiff "a" "just some text
without a header" = mkResult false None (Some "No valid hunks found in diff") 0 0 [].
Proof.
  apply (empty_hunk_set_rejected "a" "just some text
without a header").
  right. reflexivity.
Defined.

(* ================================================================== *)
(** ** The safety classifier (4.8) *)
(* ================================================================== *)

Lemma startsWith_header_not_change (line : string) :
  startsWith line "@@" = true ->
  startsWith line "+" = false /\ startsWith line "-" = false.
Proof.
  destruct line as [|c r]; [discriminate|].
  unfold startsWith. rewrite !prefix_cons.
  destruct (Ascii.eqb "@" c) eqn:E; [|discriminate].
  apply Ascii.eqb_eq in E. subst c. intros _. split; reflexivity.
Qed.

Lemma scanLine_counts (st : Scan) (line : string) :
  hunkCount (scanLine st line)
  = (hunkCount st + if isHunkHeader line then 1 else 0)%nat
  /\ (addedLines (scanLine st line) + removedLines (scanLine st line)
      = addedLines st + removedLines st + if isChangedLine line then 1 else 0)%nat.
Proof.
  unfold scanLine, isHunkHeader, isChangedLine.
  destruct (startsWith line "@@") eqn:Hh.
  - destruct (startsWith_header_not_change line Hh) as [-> ->].
    destruct (_ || _)%bool; destruct (_ || _)%bool; simpl; lia.
  - destruct (startsWith line "+"), (startsWith line "+++"),
      (startsWith line "-"), (startsWith line "---");
      destruct (_ || _)%bool; destruct (_ || _)%bool; simpl; lia.
Qed.

Lemma scanLines_counts (ls : list string) :
  forall st,
    hunkCount (scanLines ls st)
    = (hunkCount st + List.length (filter isHunkHeader ls))%nat
    /\ (addedLines (scanLines ls st) + removedLines (scanLines ls st)
        = addedLines st + removedLines st
          + List.length (filter isChangedLine ls))%nat.
Proof.
  unfold scanLines.
  induction ls as [|line ls IH]; intros st; simpl; [lia|].
  destruct (IH (scanLine st line)) as [H1 H2].
  destruct (scanLine_counts st line) as [C1 C2].
  rewrite H1, H2, C1, C2.
  destruct (isHunkHeader line), (isChangedLine line); simpl; lia.
Qed.

(** C8. A diff with more than 5 hunk-header lines, or with more than 50
    added and removed lines together, is classified [Caution] or [Review],
    and the large-diff finding is among its issues. *)
Theorem large_diff_flagged (D : string) :
  (5 < countHunkHeaders D)%nat \/ (50 < countChangedLines D)%nat ->
  (level (validateDiffSafety D) = Caution \/ level (validateDiffSafety D) = Review)
  /\ In largeDiffIssue (issues (validateDiffSafety D)).
Proof.
  unfold countHunkHeaders, countChangedLines, validateDiffSafety. intros H.
  destruct (scanLines_counts (split D) (mkScan 0 0 0 [] Safe)) as [H1 H2].
  simpl in H1, H2.
  set (st := scanLines (split D) (mkScan 0 0 0 [] Safe)) in *.
  assert (((5 <? hunkCount st)%nat
           || (50 <? addedLines st + removedLines st)%nat)%bool = true) as Hc.
  { apply orb_true_iff. rewrite !Nat.ltb_lt. lia. }
  rewrite Hc. simpl. split.
  - destruct (scanLevel st); auto.
  - apply in_or_app. right. now left.
Qed.

Lemma large_diff_flagged_witness :
  countHunkHeaders Samples.eightHunks = 8%nat
  /\ countChangedLines Samples.eightHunks = 80%nat
  /\ (level (validateDiffSafety Samples.eightHunks) = Caution
      \/ level (validateDiffSafety Samples.eightHunks) = Review)
  /\ In largeDiffIssue (issues (validateDiffSafety Samples.eightHunks)).
Proof.
  split; [reflexivity|]. split; [reflexivity|].
  apply (large_diff_flagged Samples.eightHunks).
  left. vm_compute. lia.
Defined.

(** C9, as stated, fails: the flag is also true at [Caution].  The diff of
    eight hunks is classified [Caution] and flagged safe. *)
Lemma safe_flag_at_caution_counterexample :
  ~ (forall D, safe (validateDiffSafety D) = true ->
               level (validateDiffSafety D) = Safe).
Proof.
  intros H. specialize (H Samples.eightHunks eq_refl). discriminate H.
Qed.

(** C9, amended. The [safe] flag is true exactly when the level is not
    [Review]: true at [Safe] and at [Caution], false at [Review]. *)
Theorem safe_flag_iff_not_review (D : string) :
  (safe (validateDiffSafety D) = true <-> level (validateDiffSafety D) <> Review)
  /\ (safe (validateDiffSafety D) = false <-> level (validateDiffSafety D) = Review).
Proof.
  unfold validateDiffSafety.
  destruct (_ || _)%bool; simpl;
    destruct (scanLevel _); simpl; split; split;
      intros H; try congruence; try reflexivity.
Qed.

(* ================================================================== *)
(** ** The hunk body parser (4.2) *)
(* ================================================================== *)


Lemma digits_allDigits (s : string) :
  forall d rest, Header.digits s = (d, rest) -> allDigits d = true.
Proof.
  induction s as [|c s IH]; intros d rest H; simpl in H.
  - now inversion H.
  - destruct (isDigit c) eqn:Hc; [|now inversion H].
    destruct (Header.digits s) as [d0 r0]. inversion H; subst.
    simpl. rewrite Hc. eapply IH. reflexivity.
Qed.

Lemma parseDigits_nonneg (d : string) :
  forall acc, allDigits d = true -> 0 <= acc -> 0 <= parseDigits acc d.
Proof.
  induction d as [|c d IH]; intros acc Hd Hacc; [exact Hacc|].
  cbn [allDigits] in Hd. cbn [parseDigits].
  apply andb_true_iff in Hd. destruct Hd as [Hc Hd].
  apply IH; [exact Hd|].
  unfold isDigit in Hc. cbv zeta in Hc.
  apply andb_true_iff in Hc. destruct Hc as [Hlo _].
  apply N.leb_le in Hlo.
  assert (48 <= Z.of_N (N_of_ascii c)) by lia. lia.
Qed.

Lemma optCount_nonneg (s rest : string) (g : option string) :
  Header.optCount s = (g, rest) -> 0 <= declaredCount g.
Proof.
  unfold Header.optCount, Header.digits1. intros H.
  destruct g as [d|]; [|simpl; lia].
  destruct s as [|c s]; [discriminate|].
  destruct (Ascii.eqb c ","); [|discriminate].
  destruct (Header.digits s) as [d0 r0] eqn:Hd.
  destruct d0 as [|x d0]; [discriminate|].
  inversion H; subst.
  apply parseDigits_nonneg; [|lia]. exact (digits_allDigits _ _ _ Hd).
Qed.

Lemma matchHeader_counts (header g1 g3 : string) (g2 g4 : option string) :
  Header.matchHeader header = Some (g1, g2, g3, g4) ->
  0 <= declaredCount g2 /\ 0 <= declaredCount g4.
Proof.
  unfold Header.matchHeader. intros H.
  destruct (Header.lit2 header) as [s1|]; [|discriminate].
  destruct (Header.ws1 s1) as [s2|]; [|discriminate].
  destruct (Header.digits1 _) as [[a1 s3]|]; [|discriminate].
  destruct (Header.optCount s3) as [a2 s4] eqn:H2.
  destruct (Header.ws1 s4) as [s5|]; [|discriminate].
  destruct (Header.digits1 _) as [[a3 s6]|]; [|discriminate].
  destruct (Header.optCount s6) as [a4 s7] eqn:H4.
  destruct (Header.ws1 s7) as [s8|]; [|discriminate].
  destruct (Header.lit2 s8); [|discriminate].
  inversion H; subst.
  split; eapply optCount_nonneg; eassumption.
Qed.




(* ================================================================== *)
(** ** The diff generator (4.7) and the round trip *)
(* ================================================================== *)

Lemma findChanges_same (ls : list string) (indices : list nat) :
  forall changeStart changeEnd,
    findChanges ls ls indices changeStart changeEnd = (changeStart, changeEnd).
Proof.
  induction indices as [|i indices IH]; intros cs ce; simpl; [reflexivity|].
  rewrite String.eqb_refl. simpl. apply IH.
Qed.

Lemma generateDiff_same (T path : string) :
  generateDiff T T path = fileHeaders path.
Proof. unfold generateDiff. rewrite findChanges_same. reflexivity. Qed.

Lemma includes_nl_cons_inv (c : ascii) (s : string) :
  Ascii.eqb c NL = false -> includes s nl = false ->
  includes (String c s) nl = false.
Proof.
  intros Hc Hs. cbn [includes]. rewrite Hs. unfold nl. rewrite prefix_cons.
  destruct (Ascii.eqb NL c) eqn:E; [|reflexivity].
  apply Ascii.eqb_eq in E. subst c. rewrite Ascii.eqb_refl in Hc. discriminate.
Qed.

Lemma includes_nl_app (a b : string) :
  includes a nl = false -> includes b nl = false -> includes (a ++ b) nl = false.
Proof.
  intros Ha Hb. induction a as [|c a IH]; [exact Hb|].
  apply includes_nl_cons in Ha. destruct Ha as [Hc Ha].
  change (includes (String c (a ++ b)) nl = false).
  apply includes_nl_cons_inv; auto.
Qed.

(** The lines of a header-only diff, for a path on one line. *)
Lemma split_fileHeaders (path : string) :
  includes path nl = false ->
  split (fileHeaders path) = ["--- a/" ++ path; "+++ b/" ++ path; ""].
Proof.
  intros Hp. unfold fileHeaders.
  rewrite <- (append_assoc "--- a/" path).
  rewrite split_line by (apply includes_nl_app; [reflexivity|exact Hp]).
  rewrite <- (append_assoc "+++ b/" path).
  replace (("+++ b/" ++ path) ++ nl) with (("+++ b/" ++ path) ++ nl ++ "")
    by reflexivity.
  rewrite split_line by (apply includes_nl_app; [reflexivity|exact Hp]).
  reflexivity.
Qed.

Lemma parseDiff_fileHeaders (path : string) :
  includes path nl = false -> parseDiff (fileHeaders path) = Ok [].
Proof.
  intros Hp. apply parseDiff_no_header. rewrite (split_fileHeaders _ Hp).
  intros line [<-|[<-|[<-|[]]]]; reflexivity.
Qed.

(** C4, as stated, fails: the header-only diff that [generateDiff] gives
    for equal texts is refused by [applyCodeDiff], which returns no
    content. *)
Lemma noop_diff_not_applied_counterexample :
  ~ (forall T path : string,
        generateDiff T T path = fileHeaders path
        /\ newContent (applyCodeDiff T (generateDiff T T path)) = Some T).
Proof.
  intros H. destruct (H "a" "f.ts") as [_ Hc]. discriminate Hc.
Qed.

(** C4, amended. For every text [T], [generateDiff T T path] is the two
    file-header lines and nothing else; for a path on one line, that diff
    parses to no hunk and [applyCodeDiff] refuses it with the error that no
    valid hunks were found, returning no content. *)
Theorem noop_diff_header_only_rejected (T path : string) :
  generateDiff T T path = "--- a/" ++ path ++ nl ++ "+++ b/" ++ path ++ nl
  /\ (includes path nl = false ->
      parseDiff (generateDiff T T path) = Ok []
      /\ applyCodeDiff T (generateDiff T T path)
         = mkResult false None (Some noHunksError) 0 0 []).
Proof.
  rewrite generateDiff_same. split; [reflexivity|].
  intros Hp. pose proof (parseDiff_fileHeaders path Hp) as Hd.
  split; [exact Hd|]. unfold applyCodeDiff. now rewrite Hd.
Qed.

Lemma noop_diff_header_only_rejected_witness :
  includes "src/app.ts" nl = false
  /\ generateDiff "let x = 1;
" "let x = 1;
" "src/app.ts" = "--- a/src/app.ts
+++ b/src/app.ts
"
  /\ applyCodeDiff "let x = 1;
" (generateDiff "let x = 1;
" "let x = 1;
" "src/app.ts") = mkResult false None (Some "No valid hunks found in diff") 0 0 [].
Proof.
  assert (includes "src/app.ts" nl = false) as Hp by reflexivity.
  destruct (noop_diff_header_only_rejected "let x = 1;
" "src/app.ts") as [Hg Ha].
  split; [exact Hp|]. split; [exact Hg|]. exact (proj2 (Ha Hp)).
Defined.

(** C3 does not hold of the code.  [generateDiff] ends its output with a
    newline, so the last element of the split diff is an empty string,
    which [parseHunk] reads as one more, empty, context line; validation
    then looks one line past the hunk.  For the one-line edit of [a] into
    [b] that line is past the end of the file and the generated diff is
    refused. *)
Theorem roundtrip_one_line_edit_refused :
  generateDiff "a" "b" "f.ts" = "--- a/f.ts
+++ b/f.ts
@@ -1,1 +1,1 @@
-a
+b
"
  /\ parseDiff (generateDiff "a" "b" "f.ts")
     = Ok [mkHunk 1 1 1 1 [mkLine LRemove "a"; mkLine LAdd "b"; mkLine LContext ""]]
  /\ applyCodeDiff "a" (generateDiff "a" "b" "f.ts")
     = hunkFailure 1 1 ("Context validation failed: " ++ beyondEofError)
  /\ newContent (applyCodeDiff "a" (generateDiff "a" "b" "f.ts")) <> Some "b".
Proof. repeat split. discriminate. Qed.

(** Two more edits on which the round trip fails: a one-line edit in a
    longer file, where the line after the hunk is compared with the empty
    context line, and the replacement of eleven lines, where the body
    parser stops after 21 of the 22 hunk lines and the diff is applied
    without its last added line. *)
Lemma roundtrip_edit_inside_file_refused :
  let T := "a
b
c
d
e
f" in
  let T' := "A
b
c
d
e
f" in
  exists msg,
    applyCodeDiff T (generateDiff T T' "f.ts")
    = hunkFailure 1 1 ("Context validation failed: " ++ msg)
    /\ msg = mismatchError 4 "" "e".
Proof. eexists. split; reflexivity. Qed.

Lemma roundtrip_eleven_lines_truncated :
  let T := String.concat nl (map (fun n => "a" ++ showN n) (seq 1 11)) in
  let T' := String.concat nl (map (fun n => "b" ++ showN n) (seq 1 11)) in
  applyCodeDiff T (generateDiff T T' "f.ts")
  = mkResult true
             (Some (String.concat nl (map (fun n => "b" ++ showN n) (seq 1 10))))
             None 1 1 [].
Proof. vm_compute. reflexivity. Qed.

(* ================================================================== *)
(** ** The concrete scenarios of the specification *)
(* ================================================================== *)

Example scenario_replace_line :
  applyCodeDiff "a
b
c
" "--- a/f.ts
+++ b/f.ts
@@ -2,1 +2,1 @@
-b
+B"
  = mkResult true (Some "a
B
c
") None 1 1 [].
Proof. reflexivity. Qed.

Example scenario_wrong_context :
  applyCodeDiff "x
y
" "@@ -1 +1 @@
 z"
  = hunkFailure 1 1 ("Context validation failed: " ++ mismatchError 0 "z" "x").
Proof. reflexivity. Qed.

Example scenario_eval_snippet :
  validateDiffSafety "@@ -1 +1 @@
-run(x)
+eval(x)"
  = mkSafety false Review [dangerousIssue].
Proof. reflexivity. Qed.

(* ================================================================== *)
(** ** What an accepted hunk does to the buffer *)
(* ================================================================== *)

Lemma validateSuffix_None (ds : list DiffLine) :
  forall suffix i,
    validateSuffix suffix ds i = None ->
    (List.length ds <= List.length suffix)%nat.
Proof.
  induction ds as [|d ds IH]; intros suffix i H; simpl in *; [lia|].
  destruct suffix as [|l suffix]; [discriminate|].
  destruct (_ && _)%bool; [discriminate|].
  apply IH in H. simpl. lia.
Qed.

(** An accepted hunk starts inside the buffer and its old side fits in
    what follows. *)
Lemma applyHunk_Ok (buf buf' : list string) (h : DiffHunk) (off delta : Z) :
  applyHunk buf h off = Ok (buf', delta) ->
  0 <= oldStart h + off - 1 < Z.of_nat (List.length buf)
  /\ (Z.to_nat (oldStart h + off - 1) + List.length (oldSide h)
      <= List.length buf)%nat
  /\ applyLines (List.length buf) (lines h) (Z.to_nat (oldStart h + off - 1)) buf 0
     = (buf', delta).
Proof.
  intros H.
  assert (0 <= oldStart h + off - 1 < Z.of_nat (List.length buf)) as Hin.
  { unfold applyHunk in H.
    destruct (_ || _)%bool eqn:Hb; [discriminate|].
    apply orb_false_iff in Hb. destruct Hb as [H1 H2].
    apply Z.ltb_ge in H1. rewrite Z.geb_leb in H2. apply Z.leb_gt in H2. lia. }
  split; [exact Hin|].
  rewrite (applyHunk_inside _ _ _ Hin) in H.
  destruct (validateSuffix _ _ _) eqn:Hv; [discriminate|].
  apply validateSuffix_None in Hv. rewrite length_skipn in Hv.
  split; [lia|]. now inversion H.
Qed.

Lemma firstn_spliceRemove (A : Type) (start idx : nat) (res : list A) :
  (start <= idx)%nat ->
  firstn start (spliceRemove idx res) = firstn start res.
Proof.
  intros Hle. unfold spliceRemove.
  rewrite firstn_app, firstn_firstn, length_firstn.
  replace (start - Nat.min idx (List.length res))%nat
    with (start - List.length res)%nat by lia.
  replace (Nat.min start idx) with start by lia.
  destruct (Nat.le_gt_cases start (List.length res)) as [H|H].
  - replace (start - List.length res)%nat with 0%nat by lia.
    simpl. apply app_nil_r.
  - rewrite firstn_all2 by lia.
    rewrite (skipn_all2 (n := S idx)) by lia.
    rewrite firstn_nil. apply app_nil_r.
Qed.

Lemma firstn_spliceInsert (A : Type) (start idx : nat) (x : A) (res : list A) :
  (start <= idx)%nat -> (start <= List.length res)%nat ->
  firstn start (spliceInsert idx x res) = firstn start res.
Proof.
  intros Hle Hlen. unfold spliceInsert.
  rewrite firstn_app, firstn_firstn, length_firstn.
  replace (start - Nat.min idx (List.length res))%nat with 0%nat by lia.
  replace (Nat.min start idx) with start by lia.
  simpl. apply app_nil_r.
Qed.

Lemma length_spliceRemove (A : Type) (idx : nat) (res : list A) :
  (idx < List.length res)%nat ->
  List.length (spliceRemove idx res) = (List.length res - 1)%nat.
Proof.
  intros H. unfold spliceRemove.
  rewrite length_app, length_firstn, length_skipn. lia.
Qed.

Lemma length_spliceInsert (A : Type) (idx : nat) (x : A) (res : list A) :
  List.length (spliceInsert idx x res) = S (List.length res).
Proof.
  unfold spliceInsert. rewrite length_app. simpl.
  rewrite length_firstn, length_skipn. lia.
Qed.

Lemma applyLines_prefix (len start : nat) (hl : list DiffLine) :
  forall idx res delta,
    (start <= idx)%nat -> (start <= List.length res)%nat ->
    firstn start (fst (applyLines len hl idx res delta)) = firstn start res.
Proof.
  induction hl as [|d hl IH]; intros idx res delta Hi Hr; simpl; [reflexivity|].
  destruct (type d).
  - destruct (idx <? len)%nat; apply IH; lia.
  - destruct (Nat.ltb_spec idx (List.length res)) as [Hlt|Hge].
    + rewrite IH; [now apply firstn_spliceRemove|lia|].
      rewrite length_spliceRemove by exact Hlt. lia.
    + apply IH; lia.
  - rewrite IH; [now apply firstn_spliceInsert|lia|].
    rewrite length_spliceInsert. lia.
Qed.

Lemma countOld_cons (d : DiffLine) (hl : list DiffLine) :
  List.length (filter isOld (d :: hl))
  = ((if isOld d then 1 else 0) + List.length (filter isOld hl))%nat.
Proof. simpl. now destruct (isOld d). Qed.

Lemma isOld_type (d : DiffLine) :
  isOld d = match type d with LAdd => false | _ => true end.
Proof. unfold isOld. now destruct (type d). Qed.

(** Once the old side of the hunk fits behind the cursor, every remove
    line finds its line, so the offset is adds minus removes. *)
Lemma applyLines_counts (len : nat) (hl : list DiffLine) :
  forall idx res delta,
    (idx + List.length (filter isOld hl) <= List.length res)%nat ->
    snd (applyLines len hl idx res delta)
    = delta + Z.of_nat (countKind LAdd hl) - Z.of_nat (countKind LRemove hl).
Proof.
  unfold countKind.
  induction hl as [|d hl IH]; intros idx res delta Hfit; [simpl; lia|].
  rewrite countOld_cons, isOld_type in Hfit. cbn [applyLines filter isKind].
  destruct (type d); simpl in Hfit |- *.
  - destruct (idx <? len)%nat; rewrite IH; lia.
  - destruct (Nat.ltb_spec idx (List.length res)) as [Hlt|Hge]; [|lia].
    rewrite IH; [lia|]. rewrite length_spliceRemove by exact Hlt. lia.
  - rewrite IH; [lia|]. rewrite length_spliceInsert. lia.
Qed.

Lemma patch_all_context (hl : list DiffLine) :
  forallb (isKind LContext) hl = true -> forall old, patch hl old = old.
Proof.
  induction hl as [|d hl IH]; intros H old; simpl in *; [reflexivity|].
  apply andb_true_iff in H. destruct H as [Hd H].
  unfold isKind in Hd. destruct (type d); try discriminate.
  destruct old as [|o old]; [now apply IH|]. now rewrite IH.
Qed.

Lemma applyLines_all_context (len : nat) (hl : list DiffLine) :
  forallb (isKind LContext) hl = true ->
  forall idx res delta,
    fst (applyLines len hl idx res delta) = res
    /\ snd (applyLines len hl idx res delta) = delta.
Proof.
  induction hl as [|d hl IH]; intros H idx res delta; simpl in *; [auto|].
  apply andb_true_iff in H. destruct H as [Hd H].
  unfold isKind in Hd. destruct (type d); try discriminate.
  destruct (idx <? len)%nat; now apply IH.
Qed.

Lemma spliceRemove_at (A : Type) (pre tail : list A) (o : A) :
  spliceRemove (List.length pre) (pre ++ o :: tail)%list = (pre ++ tail)%list.
Proof.
  unfold spliceRemove. induction pre as [|x pre IH]; [reflexivity|].
  simpl in *. now rewrite IH.
Qed.

Lemma spliceInsert_at (A : Type) (pre tail : list A) (x : A) :
  spliceInsert (List.length pre) x (pre ++ tail)%list = (pre ++ x :: tail)%list.
Proof.
  unfold spliceInsert. induction pre as [|y pre IH]; [reflexivity|].
  simpl in *. now rewrite IH.
Qed.

(** The splice loop against the reference semantics: with the buffer
    split at the cursor into [pre] and [tail], the loop leaves [pre]
    followed by the patched [tail]. *)
Lemma applyLines_patch (len : nat) (hl : list DiffLine) :
  forall pre tail delta,
    ctxReached len (List.length pre) hl = true ->
    (List.length (filter isOld hl) <= List.length tail)%nat ->
    fst (applyLines len hl (List.length pre) (pre ++ tail)%list delta)
    = (pre ++ patch hl tail)%list.
Proof.
  induction hl as [|d hl IH]; intros pre tail delta Hc Hfit; [reflexivity|].
  rewrite countOld_cons, isOld_type in Hfit. cbn [applyLines patch ctxReached] in *.
  destruct (type d) eqn:Ht; simpl in Hfit.
  - destruct tail as [|o tail]; [simpl in Hfit; lia|]. simpl in Hfit.
    destruct (List.length pre <? len)%nat.
    + replace (pre ++ o :: tail)%list with ((pre ++ [o]) ++ tail)%list
        by (rewrite <- app_assoc; reflexivity).
      replace (S (List.length pre)) with (List.length (pre ++ [o])%list) in *
        by (rewrite length_app; simpl; lia).
      rewrite IH; [|exact Hc|lia].
      rewrite <- app_assoc. reflexivity.
    + rewrite (proj1 (applyLines_all_context len hl Hc _ _ _)).
      now rewrite (patch_all_context hl Hc).
  - destruct tail as [|o tail]; [simpl in Hfit; lia|]. simpl in Hfit.
    assert (List.length pre < List.length (pre ++ o :: tail)%list)%nat as Hlt
        by (rewrite length_app; simpl; lia).
    apply Nat.ltb_lt in Hlt. rewrite Hlt.
    rewrite spliceRemove_at. simpl. apply IH; [exact Hc|lia].
  - rewrite spliceInsert_at.
    replace (pre ++ content d :: tail)%list
      with ((pre ++ [content d]) ++ tail)%list
      by (rewrite <- app_assoc; reflexivity).
    replace (S (List.length pre))
      with (List.length (pre ++ [content d])%list) in *
      by (rewrite length_app; simpl; lia).
    rewrite IH; [|exact Hc|lia].
    rewrite <- app_assoc. reflexivity.
Qed.

Lemma ctxReached_context (len : nat) (trail : list DiffLine) :
  forallb (isKind LContext) trail = true ->
  forall idx, ctxReached len idx trail = true.
Proof.
  induction trail as [|d trail IH]; intros H idx; simpl in *; [reflexivity|].
  apply andb_true_iff in H. destruct H as [Hd H].
  unfold isKind in Hd. destruct (type d); try discriminate.
  destruct (idx <? len)%nat; [now apply IH|exact H].
Qed.

Lemma ctxReached_changes (len : nat) (changes trail : list DiffLine) :
  forallb (fun d => negb (isKind LContext d)) changes = true ->
  forallb (isKind LContext) trail = true ->
  forall idx, ctxReached len idx (changes ++ trail)%list = true.
Proof.
  intros Hc Ht.
  induction changes as [|d changes IH]; intros idx; simpl in *.
  - now apply ctxReached_context.
  - apply andb_true_iff in Hc. destruct Hc as [Hd Hc].
    unfold isKind in Hd. destruct (type d); try discriminate; now apply IH.
Qed.

Lemma ctxReached_shape (len : nat) (lead changes trail : list DiffLine) :
  forallb (isKind LContext) lead = true ->
  forallb (fun d => negb (isKind LContext d)) changes = true ->
  forallb (isKind LContext) trail = true ->
  forall idx,
    (idx + List.length lead <= len)%nat ->
    ctxReached len idx (lead ++ changes ++ trail)%list = true.
Proof.
  intros Hl Hc Ht.
  induction lead as [|d lead IH]; intros idx Hfit; simpl in *.
  - now apply ctxReached_changes.
  - apply andb_true_iff in Hl. destruct Hl as [Hd Hl].
    unfold isKind in Hd. destruct (type d); try discriminate.
    destruct (Nat.ltb_spec idx len); [|lia]. apply IH; [exact Hl|lia].
Qed.

Lemma ctxReached_fits (len : nat) (hl : list DiffLine) :
  forall idx,
    (idx + countKind LContext hl + countKind LAdd hl <= len)%nat ->
    ctxReached len idx hl = true.
Proof.
  unfold countKind.
  induction hl as [|d hl IH]; intros idx Hfit; [reflexivity|].
  cbn [ctxReached filter isKind] in *.
  destruct (type d); simpl in Hfit.
  - destruct (Nat.ltb_spec idx len); [|lia]. apply IH. lia.
  - apply IH. lia.
  - apply IH. lia.
Qed.

Lemma context_is_old (lead : list DiffLine) :
  forallb (isKind LContext) lead = true ->
  filter isOld lead = lead.
Proof.
  induction lead as [|d lead IH]; intros H; simpl in *; [reflexivity|].
  apply andb_true_iff in H. destruct H as [Hd H].
  unfold isKind in Hd. unfold isOld at 1.
  destruct (type d); try discriminate. now rewrite IH.
Qed.

(** The lines after the old side of the hunk come through unchanged, and
    in between stand as many lines as the hunk has context and add lines. *)
Lemma patch_split (hl : list DiffLine) :
  forall old,
    (List.length (filter isOld hl) <= List.length old)%nat ->
    exists mid,
      patch hl old = (mid ++ skipn (List.length (filter isOld hl)) old)%list
      /\ List.length mid = (countKind LContext hl + countKind LAdd hl)%nat.
Proof.
  unfold countKind.
  induction hl as [|d hl IH]; intros old Hfit.
  - exists []. split; reflexivity.
  - rewrite countOld_cons, isOld_type in *. cbn [patch filter isKind].
    destruct (type d); simpl in Hfit.
    + destruct old as [|o old]; [simpl in Hfit; lia|]. simpl in Hfit.
      destruct (IH old) as (mid & Hm & Hl); [lia|].
      exists (o :: mid). simpl. rewrite Hm, Hl. split; reflexivity.
    + destruct old as [|o old]; [simpl in Hfit; lia|]. simpl in Hfit.
      destruct (IH old) as (mid & Hm & Hl); [lia|].
      exists mid. simpl. rewrite Hm, Hl. split; reflexivity.
    + destruct (IH old) as (mid & Hm & Hl); [simpl; lia|].
      exists (content d :: mid). simpl. rewrite Hm, Hl. split; [reflexivity|lia].
Qed.

(** X1. An accepted hunk leaves every line before its start line as it
    was. *)
Theorem accepted_hunk_keeps_prefix
        (buf buf' : list string) (h : DiffHunk) (off delta : Z) :
  applyHunk buf h off = Ok (buf', delta) ->
  firstn (Z.to_nat (oldStart h + off - 1)) buf'
  = firstn (Z.to_nat (oldStart h + off - 1)) buf.
Proof.
  intros H. destruct (applyHunk_Ok _ _ _ _ _ H) as (Hin & Hfit & Hl).
  replace buf' with (fst (applyLines (List.length buf) (lines h)
                            (Z.to_nat (oldStart h + off - 1)) buf 0))
    by now rewrite Hl.
  apply applyLines_prefix; lia.
Qed.

Lemma accepted_hunk_keeps_prefix_witness :
  applyHunk ["a"; "b"; "c"; "d"]
            (mkHunk 3 1 3 2 [mkLine LRemove "c"; mkLine LAdd "C"; mkLine LAdd "CC"]) 0
  = Ok (["a"; "b"; "C"; "CC"; "d"], 1)
  /\ firstn 2 ["a"; "b"; "C"; "CC"; "d"] = firstn 2 ["a"; "b"; "c"; "d"].
Proof.
  split; [reflexivity|].
  exact (accepted_hunk_keeps_prefix
           ["a"; "b"; "c"; "d"] ["a"; "b"; "C"; "CC"; "d"]
           (mkHunk 3 1 3 2 [mkLine LRemove "c"; mkLine LAdd "C"; mkLine LAdd "CC"])
           0 1 eq_refl).
Defined.

(** X2. For an accepted hunk every remove line finds a line to delete:
    the offset returned is the number of add lines minus the number of
    remove lines, and the buffer grows by exactly that much. *)
Theorem accepted_hunk_offset
        (buf buf' : list string) (h : DiffHunk) (off delta : Z) :
  applyHunk buf h off = Ok (buf', delta) ->
  delta = Z.of_nat (countKind LAdd (lines h))
          - Z.of_nat (countKind LRemove (lines h))
  /\ Z.of_nat (List.length buf') = Z.of_nat (List.length buf) + delta.
Proof.
  intros H. pose proof (applyHunk_delta _ _ _ _ _ H) as Hd.
  destruct (applyHunk_Ok _ _ _ _ _ H) as (Hin & Hfit & Hl).
  split; [|lia].
  pose proof (applyLines_counts (List.length buf) (lines h)
                (Z.to_nat (oldStart h + off - 1)) buf 0 Hfit) as Hc.
  rewrite Hl in Hc. simpl in Hc. lia.
Qed.

Lemma accepted_hunk_offset_witness :
  applyHunk ["a"; "b"; "c"; "d"]
            (mkHunk 3 1 3 2 [mkLine LRemove "c"; mkLine LAdd "C"; mkLine LAdd "CC"]) 0
  = Ok (["a"; "b"; "C"; "CC"; "d"], 1)
  /\ 1 = Z.of_nat 2 - Z.of_nat 1
  /\ Z.of_nat 5 = Z.of_nat 4 + 1.
Proof.
  split; [reflexivity|].
  exact (accepted_hunk_offset
           ["a"; "b"; "c"; "d"] ["a"; "b"; "C"; "CC"; "d"]
           (mkHunk 3 1 3 2 [mkLine LRemove "c"; mkLine LAdd "C"; mkLine LAdd "CC"])
           0 1 eq_refl).
Defined.

(** X3. For an accepted hunk made of leading context lines, then remove
    and add lines, then trailing context lines, or one whose context and
    add lines together do not reach past the original number of lines, the
    new buffer is the old one with the part from the start line on
    patched: lines before the hunk and after its old side are untouched,
    context lines keep the text of the file, remove lines disappear and
    add lines appear in the order of the hunk. *)
Theorem accepted_hunk_is_patch
        (buf buf' : list string) (h : DiffHunk) (off delta : Z) :
  applyHunk buf h off = Ok (buf', delta) ->
  (exists lead changes trail,
      lines h = (lead ++ changes ++ trail)%list
      /\ forallb (isKind LContext) lead = true
      /\ forallb (fun d => negb (isKind LContext d)) changes = true
      /\ forallb (isKind LContext) trail = true)
  \/ (Z.to_nat (oldStart h + off - 1) + countKind LContext (lines h)
      + countKind LAdd (lines h) <= List.length buf)%nat ->
  buf' = (firstn (Z.to_nat (oldStart h + off - 1)) buf
          ++ patch (lines h) (skipn (Z.to_nat (oldStart h + off - 1)) buf))%list
  /\ exists mid,
      buf' = (firstn (Z.to_nat (oldStart h + off - 1)) buf ++ mid
              ++ skipn (Z.to_nat (oldStart h + off - 1) + List.length (oldSide h))
                       buf)%list
      /\ List.length mid
         = (countKind LContext (lines h) + countKind LAdd (lines h))%nat.
Proof.
  intros H Hshape.
  destruct (applyHunk_Ok _ _ _ _ _ H) as (Hin & Hfit & Hl).
  set (start := Z.to_nat (oldStart h + off - 1)) in *.
  assert (ctxReached (List.length buf) start (lines h) = true) as Hc.
  { destruct Hshape as [(lead & changes & trail & Hs & L & C & R)|Hn].
    - rewrite Hs. apply ctxReached_shape; auto.
      unfold oldSide in Hfit. rewrite Hs, filter_app, length_app in Hfit.
      rewrite (context_is_old lead L) in Hfit. lia.
    - now apply ctxReached_fits. }
  assert (List.length (firstn start buf) = start) as Hpre
      by (rewrite length_firstn; lia).
  assert (List.length (filter isOld (lines h))
          <= List.length (skipn start buf))%nat as Hold
      by (rewrite length_skipn; unfold oldSide in Hfit; lia).
  pose proof (applyLines_patch (List.length buf) (lines h)
                (firstn start buf) (skipn start buf) 0) as Hp.
  rewrite Hpre, firstn_skipn, Hl in Hp. simpl in Hp.
  specialize (Hp Hc Hold).
  split; [exact Hp|].
  destruct (patch_split (lines h) (skipn start buf) Hold) as (mid & Hm & Hlen).
  exists mid. split; [|exact Hlen].
  rewrite Hp, Hm, skipn_skipn. unfold oldSide.
  now rewrite (Nat.add_comm start).
Qed.

Lemma accepted_hunk_is_patch_witness :
  applyHunk ["a"; "  b"; "c"; "d"]
            (mkHunk 2 2 2 3
                    [mkLine LContext "b"; mkLine LRemove "c"; mkLine LAdd "C";
                     mkLine LAdd "CC"; mkLine LContext "d"]) 0
  = Ok (["a"; "  b"; "C"; "CC"; "d"], 1)
  /\ ["a"; "  b"; "C"; "CC"; "d"]
     = (firstn 1 ["a"; "  b"; "c"; "d"]
        ++ patch [mkLine LContext "b"; mkLine LRemove "c"; mkLine LAdd "C";
                  mkLine LAdd "CC"; mkLine LContext "d"]
                 (skipn 1 ["a"; "  b"; "c"; "d"]))%list.
Proof.
  split; [reflexivity|].
  refine (proj1 (accepted_hunk_is_patch
                   ["a"; "  b"; "c"; "d"] ["a"; "  b"; "C"; "CC"; "d"]
                   (mkHunk 2 2 2 3
                           [mkLine LContext "b"; mkLine LRemove "c"; mkLine LAdd "C";
                            mkLine LAdd "CC"; mkLine LContext "d"])
                   0 1 eq_refl _)).
  left. exists [mkLine LContext "b"],
    [mkLine LRemove "c"; mkLine LAdd "C"; mkLine LAdd "CC"],
    [mkLine LContext "d"].
  repeat split.
Defined.

(* ================================================================== *)
(** ** The result record and diffs that change nothing *)
(* ================================================================== *)

(** Splitting at newlines and joining with newlines gives the text back. *)
Lemma join_split (s : string) : join (split s) = s.
Proof.
  unfold join. induction s as [|c s IH]; [reflexivity|].
  simpl. destruct (Ascii.eqb c NL) eqn:Hc.
  - apply Ascii.eqb_eq in Hc. subst c.
    destruct (split s) as [|h t] eqn:Hs; [now apply split_not_nil in Hs|].
    change (String.concat nl ("" :: h :: t))
      with ("" ++ nl ++ String.concat nl (h :: t)).
    now rewrite IH.
  - destruct (split s) as [|h t] eqn:Hs; [now apply split_not_nil in Hs|].
    destruct t as [|h' t].
    + simpl in *. now rewrite IH.
    + change (String.concat nl (String c h :: h' :: t))
        with (String c (h ++ nl ++ String.concat nl (h' :: t))).
      change (String.concat nl (h :: h' :: t))
        with (h ++ nl ++ String.concat nl (h' :: t)) in IH.
      now rewrite IH.
Qed.

Lemma applyHunk_all_context (buf buf' : list string) (h : DiffHunk) (off delta : Z) :
  forallb (isKind LContext) (lines h) = true ->
  applyHunk buf h off = Ok (buf', delta) ->
  buf' = buf /\ delta = 0.
Proof.
  intros Hc H. destruct (applyHunk_Ok _ _ _ _ _ H) as (_ & _ & Hl).
  destruct (applyLines_all_context (List.length buf) (lines h) Hc
              (Z.to_nat (oldStart h + off - 1)) buf 0) as [H1 H2].
  rewrite Hl in H1, H2. simpl in *. auto.
Qed.

Lemma applyLoop_all_context (hunks : list DiffHunk) :
  (forall h, In h hunks -> forallb (isKind LContext) (lines h) = true) ->
  forall buf off applied total warns,
    success (applyLoop hunks buf off applied total warns) = true ->
    newContent (applyLoop hunks buf off applied total warns) = Some (join buf).
Proof.
  induction hunks as [|h hunks IH]; intros Hall buf off applied total warns Hs;
    simpl in *; [reflexivity|].
  destruct (applyHunk buf h off) as [[b d]|e] eqn:Hh; [|discriminate].
  destruct (applyHunk_all_context buf b h off d (Hall h (or_introl eq_refl)) Hh)
    as [-> ->].
  apply IH; [|exact Hs]. intros h' Hin. apply Hall. now right.
Qed.

(** X4. A diff whose hunks hold context lines only changes nothing: when
    [applyCodeDiff] accepts it, the content returned is the original text,
    character for character. *)
Theorem context_only_diff_keeps_text (T D : string) (hunks : list DiffHunk) :
  parseDiff D = Ok hunks ->
  (forall h, In h hunks -> forallb (isKind LContext) (lines h) = true) ->
  success (applyCodeDiff T D) = true ->
  newContent (applyCodeDiff T D) = Some T.
Proof.
  intros Hp Hall. unfold applyCodeDiff. rewrite Hp.
  destruct hunks as [|h hs] eqn:Hl; [discriminate|].
  rewrite <- Hl in *. intros Hs.
  rewrite (applyLoop_all_context hunks Hall _ _ _ _ _ Hs).
  now rewrite join_split.
Qed.

Lemma context_only_diff_keeps_text_witness :
  let T := "fn main() {
  body
}
" in
  let D := "@@ -1,3 +1,3 @@
 fn main() {
 body
 }" in
  success (applyCodeDiff T D) = true /\ newContent (applyCodeDiff T D) = Some T.
Proof.
  intros T D.
  assert (success (applyCodeDiff T D) = true) as Hs by reflexivity.
  split; [exact Hs|].
  apply (context_only_diff_keeps_text T D
           [mkHunk 1 3 1 3 [mkLine LContext "fn main() {"; mkLine LContext "body";
                            mkLine LContext "}"]] eq_refl); [|exact Hs].
  intros h [<-|[]]. reflexivity.
Defined.

Lemma applyLoop_shape (hunks : list DiffHunk) :
  forall buf off applied total,
    (applied + List.length hunks = total)%nat ->
    let r := applyLoop hunks buf off applied total [] in
    (success r = true /\ (exists c, newContent r = Some c) /\ error r = None
     /\ appliedHunks r = total /\ warnings r = [])
    \/ (success r = false /\ newContent r = None /\ (exists e, error r = Some e)
        /\ (appliedHunks r < total)%nat /\ List.length (warnings r) = 1%nat).
Proof.
  induction hunks as [|h hunks IH]; intros buf off applied total Ht; simpl in *.
  - left. repeat split; eauto. lia.
  - destruct (applyHunk buf h off) as [[b d]|e].
    + apply IH. lia.
    + right. simpl. repeat split; eauto. lia.
Qed.

(** X5. The result of [applyCodeDiff] has one of two shapes.  A success
    carries content, no error and no warning, and counts every hunk of a
    non-empty diff as applied.  A failure carries an error and no content,
    and fewer applied hunks than there are, or no hunk at all. *)
Theorem applyCodeDiff_result_shape (T D : string) :
  let r := applyCodeDiff T D in
  (success r = true /\ (exists c, newContent r = Some c) /\ error r = None
   /\ appliedHunks r = totalHunks r /\ (0 < totalHunks r)%nat
   /\ warnings r = [])
  \/ (success r = false /\ newContent r = None /\ (exists e, error r = Some e)
      /\ ((appliedHunks r < totalHunks r)%nat
          \/ (appliedHunks r = 0%nat /\ totalHunks r = 0%nat))
      /\ (List.length (warnings r) <= 1)%nat).
Proof.
  unfold applyCodeDiff.
  destruct (parseDiff D) as [hunks|e].
  2:{ right. simpl. repeat split; eauto. }
  destruct hunks as [|h hs] eqn:Hl.
  { right. simpl. repeat split; eauto. }
  rewrite <- Hl.
  assert (0 < List.length hunks)%nat as Hpos by (rewrite Hl; simpl; lia).
  destruct (applyLoop_shape hunks (split T) 0 0%nat (List.length hunks) eq_refl)
    as [(S1 & S2 & S3 & S4 & S5)|(F1 & F2 & F3 & F4 & F5)];
    cbv zeta; rewrite applyLoop_totalHunks.
  - left. repeat split; auto.
  - right. repeat split; auto. lia.
Qed.

(* ================================================================== *)
(** ** Refused and accepted headers *)
(* ================================================================== *)

Lemma startsWith_header_not_file (line : string) :
  startsWith line "@@" = true ->
  startsWith line "---" = false /\ startsWith line "+++" = false.
Proof.
  destruct line as [|c r]; [discriminate|].
  unfold startsWith. rewrite !prefix_cons.
  destruct (Ascii.eqb "@" c) eqn:E; [|discriminate].
  apply Ascii.eqb_eq in E. subst c. intros _. split; reflexivity.
Qed.

(** The scan reports the first hunk header that [parseHunk] refuses. *)
Lemma parseDiffLoop_first_error
      (lines : list string) (k : nat) (line e : string) :
  nth_error lines k = Some line ->
  startsWith line "@@" = true ->
  parseHunk lines k = Err e ->
  forall fuel i acc,
    (i <= k)%nat ->
    (List.length lines - i < fuel)%nat ->
    (forall j l, (i <= j < k)%nat -> nth_error lines j = Some l ->
                 startsWith l "@@" = false) ->
    parseDiffLoop fuel lines i acc
    = Some (Err ("Invalid hunk at line " ++ showN (S k) ++ ": " ++ e)).
Proof.
  intros Hk Hh He.
  induction fuel as [|fuel IH]; intros i acc Hi Hf Hno; [lia|].
  simpl. destruct (Nat.eq_dec i k) as [->|Hne].
  - rewrite Hk. destruct (startsWith_header_not_file line Hh) as [-> ->].
    now rewrite Hh, He.
  - destruct (nth_error lines i) as [l|] eqn:Hn.
    2:{ apply nth_error_None in Hn.
        assert (k < List.length lines)%nat by (apply nth_error_Some; congruence).
        lia. }
    assert (i < List.length lines)%nat by (apply nth_error_Some; congruence).
    rewrite (Hno i l) by (auto; lia).
    assert (forall j l0, (S i <= j < k)%nat -> nth_error lines j = Some l0 ->
                         startsWith l0 "@@" = false) as Hno'
        by (intros j l0 Hj; apply Hno; lia).
    destruct (startsWith l "---"); [apply IH; auto; lia|].
    destruct (startsWith l "+++"); apply IH; auto; lia.
Qed.

Lemma parseDiff_first_error
      (D : string) (pre rest : list string) (line e : string) :
  split D = (pre ++ line :: rest)%list ->
  (forall l, In l pre -> startsWith l "@@" = false) ->
  startsWith line "@@" = true ->
  parseHunk (split D) (List.length pre) = Err e ->
  parseDiff D
  = Err ("Invalid hunk at line " ++ showN (S (List.length pre)) ++ ": " ++ e).
Proof.
  intros Hs Hno Hh He. unfold parseDiff.
  rewrite (parseDiffLoop_first_error (split D) (List.length pre) line e);
    auto; try lia.
  - rewrite Hs, nth_error_app2, Nat.sub_diag by lia. reflexivity.
  - intros j l Hj Hn. rewrite Hs, nth_error_app1 in Hn by lia.
    apply Hno. eapply nth_error_In; eauto.
Qed.

(** X6. When the first line of a diff that starts with [@@] does not have
    the form of a hunk header, parsing fails with an error that gives the
    1-based number of that line and quotes it, and [applyCodeDiff] returns
    that error with no hunk applied or counted and no content. *)
Theorem malformed_header_reported
        (T D : string) (pre rest : list string) (line : string) :
  split D = (pre ++ line :: rest)%list ->
  (forall l, In l pre -> startsWith l "@@" = false) ->
  startsWith line "@@" = true ->
  Header.matchHeader line = None ->
  applyCodeDiff T D
  = mkResult false None
             (Some ("Invalid hunk at line " ++ showN (S (List.length pre))
                    ++ ": Invalid hunk header format: " ++ line))
             0 0 [].
Proof.
  intros Hs Hno Hh Hm.
  assert (parseHunk (split D) (List.length pre)
          = Err ("Invalid hunk header format: " ++ line)) as He.
  { unfold parseHunk.
    rewrite Hs, nth_error_app2, Nat.sub_diag by lia. simpl. now rewrite Hm. }
  unfold applyCodeDiff.
  now rewrite (parseDiff_first_error D pre rest line _ Hs Hno Hh He).
Qed.

Lemma malformed_header_reported_witness :
  applyCodeDiff "a" "--- a/f.ts
+++ b/f.ts
@@ line 1 @@
-a
+b"
  = mkResult false None
      (Some "Invalid hunk at line 3: Invalid hunk header format: @@ line 1 @@")
      0 0 [].
Proof.
  apply (malformed_header_reported "a" _ ["--- a/f.ts"; "+++ b/f.ts"]
           ["-a"; "+b"] "@@ line 1 @@"); try reflexivity.
  intros l [<-|[<-|[]]]; reflexivity.
Defined.

(** X7. When the first hunk header of a diff declares more than 100 old
    or new lines, parsing fails with the hunk-too-large error, which gives
    the larger declared count, and [applyCodeDiff] returns that error with
    no hunk applied or counted and no content, whatever the body holds. *)
Theorem oversized_hunk_refused
        (T D : string) (pre rest : list string) (line g1 g3 : string)
        (g2 g4 : option string) :
  split D = (pre ++ line :: rest)%list ->
  (forall l, In l pre -> startsWith l "@@" = false) ->
  startsWith line "@@" = true ->
  Header.matchHeader line = Some (g1, g2, g3, g4) ->
  MAX_HUNK_SIZE < declaredCount g2 \/ MAX_HUNK_SIZE < declaredCount g4 ->
  applyCodeDiff T D
  = mkResult false None
             (Some ("Invalid hunk at line " ++ showN (S (List.length pre))
                    ++ ": Hunk too large ("
                    ++ show (Z.max (declaredCount g2) (declaredCount g4))
                    ++ " lines, max 100)"))
             0 0 [].
Proof.
  intros Hs Hno Hh Hm Hbig.
  assert (parseHunk (split D) (List.length pre)
          = Err ("Hunk too large ("
                 ++ show (Z.max (declaredCount g2) (declaredCount g4))
                 ++ " lines, max 100)")) as He.
  { unfold parseHunk.
    rewrite Hs, nth_error_app2, Nat.sub_diag by lia. simpl. rewrite Hm.
    assert (((declaredCount g2 >? MAX_HUNK_SIZE)
             || (declaredCount g4 >? MAX_HUNK_SIZE))%bool = true) as ->.
    { apply orb_true_iff. rewrite !Z.gtb_ltb, !Z.ltb_lt. exact Hbig. }
    reflexivity. }
  unfold applyCodeDiff.
  now rewrite (parseDiff_first_error D pre rest line _ Hs Hno Hh He).
Qed.

Lemma oversized_hunk_refused_witness :
  applyCodeDiff "a" "@@ -1,101 +1 @@
-a
+b"
  = mkResult false None
      (Some "Invalid hunk at line 1: Hunk too large (101 lines, max 100)")
      0 0 [].
Proof.
  apply (oversized_hunk_refused "a" _ [] ["-a"; "+b"] "@@ -1,101 +1 @@"
           "1" "1" (Some "101") None); try reflexivity.
  - intros l [].
  - left. reflexivity.
Defined.

(* ================================================================== *)
(** ** What a successful parse returns *)
(* ================================================================== *)

Lemma boundary_of_header (l : string) :
  isBoundary l = false -> isHunkHeader l = false.
Proof.
  unfold isBoundary, isHunkHeader. intros H.
  apply orb_false_iff in H. destruct H as [H _].
  apply orb_false_iff in H. now destruct H.
Qed.

Lemma filter_header_inside (consumed : list string) :
  Forall (fun l => isBoundary l = false) consumed ->
  filter isHunkHeader consumed = [].
Proof.
  induction 1 as [|l ls Hl _ IH]; simpl; [reflexivity|].
  now rewrite (boundary_of_header l Hl).
Qed.

(** What [parseHunk] returns when it succeeds. *)
Lemma parseHunk_Ok (ls : list string) (i next : nat) (h : DiffHunk) :
  parseHunk ls i = Ok (h, next) ->
  exists consumed,
    skipn (S i) ls = (consumed ++ skipn next ls)%list
    /\ Forall (fun l => isBoundary l = false) consumed
    /\ List.length (lines h) = List.length consumed
    /\ 0 <= oldLines h <= MAX_HUNK_SIZE
    /\ 0 <= newLines h <= MAX_HUNK_SIZE
    /\ Z.of_nat (List.length consumed) <= Z.max (oldLines h) (newLines h) + 10.
Proof.
  unfold parseHunk. intros H.
  destruct (nth_error ls i) as [header|]; [|discriminate].
  destruct (Header.matchHeader header) as [[[[g1 g2] g3] g4]|] eqn:Hm;
    [|discriminate].
  destruct (matchHeader_counts _ _ _ _ _ Hm) as [P2 P4].
  destruct (_ || _)%bool eqn:Hsz; [discriminate|].
  apply orb_false_iff in Hsz. destruct Hsz as [S2 S4].
  rewrite Z.gtb_ltb in S2, S4. apply Z.ltb_ge in S2, S4.
  destruct (parseBody _ _ _ _) as [hl n] eqn:Hb.
  inversion H; subst. clear H.
  destruct (parseBody_run _ _ _ _ _ _ Hb) as [consumed R]. destruct R.
  exists consumed. simpl. repeat split; try assumption.
  - transitivity (firstn (List.length consumed) (skipn (S i) ls)
                  ++ skipn (List.length consumed) (skipn (S i) ls))%list;
      [symmetry; apply firstn_skipn|].
    f_equal; [symmetry; exact run_taken0|].
    rewrite skipn_skipn. f_equal. lia.
  - subst hl. apply length_map.
  - destruct consumed as [|x xs]; [simpl; lia|].
    assert (x :: xs <> []) as Hne by discriminate.
    specialize (run_below0 Hne). simpl in *. lia.
Qed.

Lemma parseDiffLoop_count (ls : list string) :
  forall fuel i acc hs,
    parseDiffLoop fuel ls i acc = Some (Ok hs) ->
    List.length hs
    = (List.length acc + List.length (filter isHunkHeader (skipn i ls)))%nat.
Proof.
  induction fuel as [|fuel IH]; intros i acc hs H; [discriminate|].
  simpl in H. destruct (nth_error ls i) as [line|] eqn:Hn.
  2:{ inversion H; subst. apply nth_error_None in Hn.
      rewrite skipn_all2 by exact Hn. simpl. lia. }
  rewrite (skipn_cons_nth _ _ _ _ Hn). cbn [filter]. unfold isHunkHeader at 1.
  destruct (startsWith line "@@") eqn:Hh; cbn [List.length].
  - destruct (startsWith_header_not_file line Hh) as [E1 E2].
    rewrite E1, E2 in H.
    destruct (parseHunk ls i) as [[h next]|e] eqn:Hp; [|discriminate].
    apply IH in H. rewrite length_app in H. cbn [List.length] in H.
    destruct (parseHunk_Ok _ _ _ _ Hp) as (consumed & Hsk & Hin & _).
    rewrite Hsk, filter_app, (filter_header_inside _ Hin).
    cbn [app]. lia.
  - destruct (startsWith line "---"); [now apply IH in H|].
    destruct (startsWith line "+++"); now apply IH in H.
Qed.

(** X8. When a diff parses, it has exactly one hunk for each of its lines
    that start with [@@]: the number of hunks that [applyCodeDiff] reports
    as [totalHunks] is the number of hunks that [validateDiffSafety]
    counts. *)
Theorem parsed_hunks_are_header_lines (D : string) (hunks : list DiffHunk) :
  parseDiff D = Ok hunks ->
  List.length hunks = countHunkHeaders D
  /\ forall T, totalHunks (applyCodeDiff T D) = countHunkHeaders D.
Proof.
  intros Hp.
  assert (List.length hunks = countHunkHeaders D) as Hc.
  { pose proof (parseDiff_total D) as Ht. rewrite Hp in Ht.
    apply parseDiffLoop_count in Ht. simpl in Ht. exact Ht. }
  split; [exact Hc|]. intros T. unfold applyCodeDiff. rewrite Hp.
  destruct hunks as [|h hs] eqn:Hl; [exact Hc|].
  rewrite <- Hl in *. now rewrite applyLoop_totalHunks.
Qed.

Lemma parsed_hunks_are_header_lines_witness :
  let D := "--- a/f.ts
+++ b/f.ts
@@ -1 +1 @@
-a
+A
@@ -3 +3 @@
-x
+C" in
  countHunkHeaders D = 2%nat /\ totalHunks (applyCodeDiff "a
b
c" D) = 2%nat.
Proof.
  intros D. split; [reflexivity|].
  destruct (parsed_hunks_are_header_lines D
              [mkHunk 1 1 1 1 [mkLine LRemove "a"; mkLine LAdd "A"];
               mkHunk 3 1 3 1 [mkLine LRemove "x"; mkLine LAdd "C"]] eq_refl)
    as [_ Ht].
  exact (Ht _).
Defined.

Lemma digits1_nonneg (s d rest : string) :
  Header.digits1 s = Some (d, rest) -> 0 <= parseInt d.
Proof.
  unfold Header.digits1. intros H.
  destruct (Header.digits s) as [d0 r0] eqn:Hd.
  destruct d0 as [|x d0]; [discriminate|].
  inversion H; subst.
  apply parseDigits_nonneg; [|lia]. exact (digits_allDigits _ _ _ Hd).
Qed.

Lemma matchHeader_starts (header g1 g3 : string) (g2 g4 : option string) :
  Header.matchHeader header = Some (g1, g2, g3, g4) ->
  0 <= parseInt g1 /\ 0 <= parseInt g3.
Proof.
  unfold Header.matchHeader. intros H.
  destruct (Header.lit2 header) as [s1|]; [|discriminate].
  destruct (Header.ws1 s1) as [s2|]; [|discriminate].
  destruct (Header.digits1 _) as [[a1 s3]|] eqn:H1; [|discriminate].
  destruct (Header.optCount s3) as [a2 s4].
  destruct (Header.ws1 s4) as [s5|]; [|discriminate].
  destruct (Header.digits1 (Header.opt "+" s5)) as [[a3 s6]|] eqn:H3;
    [|discriminate].
  destruct (Header.optCount s6) as [a4 s7].
  destruct (Header.ws1 s7) as [s8|]; [|discriminate].
  destruct (Header.lit2 s8); [|discriminate].
  inversion H; subst.
  split; eapply digits1_nonneg; eassumption.
Qed.

Lemma parseHunk_starts (ls : list string) (i next : nat) (h : DiffHunk) :
  parseHunk ls i = Ok (h, next) -> 0 <= oldStart h /\ 0 <= newStart h.
Proof.
  unfold parseHunk. intros H.
  destruct (nth_error ls i) as [header|]; [|discriminate].
  destruct (Header.matchHeader header) as [[[[g1 g2] g3] g4]|] eqn:Hm;
    [|discriminate].
  destruct (_ || _)%bool; [discriminate|].
  destruct (parseBody _ _ _ _) as [hl n].
  inversion H; subst. simpl. exact (matchHeader_starts _ _ _ _ _ Hm).
Qed.

Lemma parseDiffLoop_Forall (P : DiffHunk -> Prop) (ls : list string) :
  (forall i h next, parseHunk ls i = Ok (h, next) -> P h) ->
  forall fuel i acc hs,
    parseDiffLoop fuel ls i acc = Some (Ok hs) ->
    Forall P acc -> Forall P hs.
Proof.
  intros HP.
  induction fuel as [|fuel IH]; intros i acc hs H Hacc; [discriminate|].
  simpl in H. destruct (nth_error ls i) as [line|]; [|now inversion H; subst].
  destruct (startsWith line "---"); [eapply IH; eauto|].
  destruct (startsWith line "+++"); [eapply IH; eauto|].
  destruct (startsWith line "@@"); [|eapply IH; eauto].
  destruct (parseHunk ls i) as [[h next]|e] eqn:Hp; [|discriminate].
  eapply IH; [exact H|]. apply Forall_app. split; [exact Hacc|].
  constructor; [|constructor]. eapply HP; eauto.
Qed.

(** X9. Every hunk of a parsed diff keeps within the parser's limits: its
    start lines are not negative, its declared counts lie between 0 and
    100, and it has at most ten body lines more than the larger declared
    count, so never more than 110. *)
Theorem parsed_hunks_bounded (D : string) (hunks : list DiffHunk) :
  parseDiff D = Ok hunks ->
  Forall (fun h =>
            0 <= oldStart h /\ 0 <= newStart h
            /\ 0 <= oldLines h <= 100 /\ 0 <= newLines h <= 100
            /\ Z.of_nat (List.length (lines h))
               <= Z.max (oldLines h) (newLines h) + 10
            /\ (List.length (lines h) <= 110)%nat) hunks.
Proof.
  intros Hp. pose proof (parseDiff_total D) as Ht. rewrite Hp in Ht.
  eapply parseDiffLoop_Forall; [|exact Ht|constructor].
  intros i h next Hh.
  destruct (parseHunk_starts _ _ _ _ Hh) as [S1 S2].
  destruct (parseHunk_Ok _ _ _ _ Hh) as (consumed & _ & _ & Hlen & Ho & Hn & Hcap).
  unfold MAX_HUNK_SIZE in *. rewrite Hlen. repeat split; lia.
Qed.

Lemma parsed_hunks_bounded_witness :
  Forall (fun h =>
            0 <= oldStart h /\ 0 <= newStart h
            /\ 0 <= oldLines h <= 100 /\ 0 <= newLines h <= 100
            /\ Z.of_nat (List.length (lines h))
               <= Z.max (oldLines h) (newLines h) + 10
            /\ (List.length (lines h) <= 110)%nat)
         [mkHunk 1 2 1 2 [mkLine LContext "a"; mkLine LRemove "b"; mkLine LAdd "B"]].
Proof.
  apply (parsed_hunks_bounded "@@ -1,2 +1,2 @@
 a
-b
+B"). reflexivity.
Defined.

(* ================================================================== *)
(** ** The level and the findings of the safety classifier *)
(* ================================================================== *)

Lemma scanLine_level (st : Scan) (line : string) :
  scanLevel (scanLine st line)
  = if isDenylisted line then Review else scanLevel st.
Proof.
  unfold scanLine, isDenylisted.
  destruct (includes line "eval("), (includes line "exec("),
    (includes line "rm -rf"), (includes line "DELETE FROM");
    destruct (startsWith line "@@");
    destruct (startsWith line "+" && negb (startsWith line "+++"))%bool;
    destruct (startsWith line "-" && negb (startsWith line "---"))%bool;
    reflexivity.
Qed.

Lemma scanLines_level (ls : list string) :
  forall st,
    scanLevel (scanLines ls st)
    = if existsb isDenylisted ls then Review else scanLevel st.
Proof.
  unfold scanLines.
  induction ls as [|l ls IH]; intros st; simpl; [reflexivity|].
  rewrite IH, scanLine_level.
  destruct (isDenylisted l), (existsb isDenylisted ls); reflexivity.
Qed.

Lemma scanLine_issues_eq (st : Scan) (line : string) :
  scanIssues (scanLine st line)
  = (scanIssues st
     ++ (if (includes line "eval(" || includes line "exec(")%bool
         then [dangerousIssue] else [])
     ++ (if (includes line "rm -rf" || includes line "DELETE FROM")%bool
         then [destructiveIssue] else []))%list.
Proof.
  unfold scanLine.
  destruct (startsWith line "@@");
    destruct (startsWith line "+" && negb (startsWith line "+++"))%bool;
    destruct (startsWith line "-" && negb (startsWith line "---"))%bool;
    destruct (includes line "eval(" || includes line "exec(")%bool;
    destruct (includes line "rm -rf" || includes line "DELETE FROM")%bool;
    simpl; rewrite <- ?app_assoc, ?app_nil_r; reflexivity.
Qed.

Lemma scanLine_issues (st : Scan) (line : string) :
  exists found,
    scanIssues (scanLine st line) = (scanIssues st ++ found)%list
    /\ (found = [] <-> isDenylisted line = false)
    /\ Forall (fun i => i = dangerousIssue \/ i = destructiveIssue) found.
Proof.
  eexists. split; [apply scanLine_issues_eq|].
  unfold isDenylisted. rewrite <- !orb_assoc.
  rewrite (orb_assoc (includes line "eval(")).
  destruct (includes line "eval(" || includes line "exec(")%bool;
    destruct (includes line "rm -rf" || includes line "DELETE FROM")%bool;
    simpl;
    (split;
     [split; intros H; (discriminate || reflexivity)
     |repeat (apply Forall_cons; [auto|]); apply Forall_nil]).
Qed.

Lemma scanLines_issues (ls : list string) :
  forall st,
    exists found,
      scanIssues (scanLines ls st) = (scanIssues st ++ found)%list
      /\ (found = [] <-> existsb isDenylisted ls = false)
      /\ Forall (fun i => i = dangerousIssue \/ i = destructiveIssue) found.
Proof.
  unfold scanLines.
  induction ls as [|l ls IH]; intros st; simpl.
  - exists []. rewrite app_nil_r. repeat split; auto.
  - destruct (IH (scanLine st l)) as (f2 & H2 & E2 & A2).
    destruct (scanLine_issues st l) as (f1 & H1 & E1 & A1).
    exists (f1 ++ f2)%list. rewrite H2, H1, app_assoc.
    split; [reflexivity|]. split; [|apply Forall_app; auto].
    rewrite orb_false_iff, <- E1, <- E2. split.
    + intros H. apply app_eq_nil in H. exact H.
    + intros [-> ->]. reflexivity.
Qed.

Lemma scan_threshold (D : string) :
  let st := scanLines (split D) (mkScan 0 0 0 [] Safe) in
  ((5 <? hunkCount st)%nat || (50 <? addedLines st + removedLines st)%nat)%bool
  = ((5 <? countHunkHeaders D)%nat || (50 <? countChangedLines D)%nat)%bool.
Proof.
  cbv zeta. unfold countHunkHeaders, countChangedLines.
  destruct (scanLines_counts (split D) (mkScan 0 0 0 [] Safe)) as [H1 H2].
  simpl in H1, H2. now rewrite H1, H2.
Qed.

(** X10. The level is decided by the lines of the diff alone: [Review]
    when some line holds one of the four denylisted substrings, otherwise
    [Caution] when the diff has more than 5 hunk headers or more than 50
    changed lines, otherwise [Safe]; and the [safe] flag is false exactly
    when some line holds a denylisted substring. *)
Theorem level_decided_by_lines (D : string) :
  level (validateDiffSafety D)
  = (if existsb isDenylisted (split D) then Review
     else if ((5 <? countHunkHeaders D)%nat
              || (50 <? countChangedLines D)%nat)%bool
          then Caution else Safe)
  /\ safe (validateDiffSafety D) = negb (existsb isDenylisted (split D)).
Proof.
  unfold validateDiffSafety.
  pose proof (scan_threshold D) as Ht. cbv zeta in Ht. rewrite Ht. clear Ht.
  rewrite (scanLines_level (split D)). simpl.
  destruct ((5 <? countHunkHeaders D)%nat || (50 <? countChangedLines D)%nat)%bool;
    destruct (existsb isDenylisted (split D)); split; reflexivity.
Qed.


(** X11. The findings follow the level: the list of issues is empty
    exactly when the level is [Safe], the large-diff finding is listed
    exactly when a size threshold is exceeded, and every finding is one of
    the three fixed messages. *)
Theorem findings_follow_level (D : string) :
  (issues (validateDiffSafety D) = [] <-> level (validateDiffSafety D) = Safe)
  /\ (In largeDiffIssue (issues (validateDiffSafety D))
      <-> (5 < countHunkHeaders D)%nat \/ (50 < countChangedLines D)%nat)
  /\ Forall (fun i => i = dangerousIssue \/ i = destructiveIssue
                      \/ i = largeDiffIssue)
            (issues (validateDiffSafety D)).
Proof.
  unfold validateDiffSafety.
  pose proof (scan_threshold D) as Ht. cbv zeta in Ht. rewrite Ht. clear Ht.
  destruct (scanLines_issues (split D) (mkScan 0 0 0 [] Safe))
    as (found & Hf & He & Ha).
  pose proof (scanLines_level (split D) (mkScan 0 0 0 [] Safe)) as Hl.
  simpl in Hf, Hl. rewrite Hf, Hl. clear Hf Hl.
  assert (~ In largeDiffIssue found) as Hnot.
  { intros Hin. rewrite Forall_forall in Ha.
    destruct (Ha _ Hin) as [E|E]; discriminate E. }
  assert (Forall (fun i => i = dangerousIssue \/ i = destructiveIssue
                           \/ i = largeDiffIssue) found) as Ha'.
  { eapply Forall_impl; [|exact Ha]. intros i [E|E]; auto. }
  destruct ((5 <? countHunkHeaders D)%nat || (50 <? countChangedLines D)%nat)%bool
    eqn:Hbig; simpl.
  - apply orb_true_iff in Hbig. rewrite !Nat.ltb_lt in Hbig.
    split; [|split].
    + split.
      * intros H. apply app_eq_nil in H. destruct H as [_ H]. discriminate.
      * destruct (existsb isDenylisted (split D)); discriminate.
    + split; [intros _; exact Hbig|].
      intros _. apply in_or_app. right. now left.
    + apply Forall_app. split; [exact Ha'|].
      apply Forall_cons; [auto|apply Forall_nil].
  - apply orb_false_iff in Hbig. rewrite !Nat.ltb_ge in Hbig.
    split; [|split].
    + rewrite He. destruct (existsb isDenylisted (split D)); split;
        intros H; (discriminate || reflexivity).
    + split; [intros H; contradiction|lia].
    + exact Ha'.
Qed.

(* ================================================================== *)
(** ** When the generator sees a change *)
(* ================================================================== *)

Lemma split_app_nl (a b : string) :
  split (a ++ String NL b) = (split a ++ split b)%list.
Proof.
  induction a as [|c a IH]; [reflexivity|].
  change (split (String c (a ++ String NL b))
          = (split (String c a) ++ split b)%list).
  cbn [split]. rewrite IH.
  destruct (Ascii.eqb c NL); [reflexivity|].
  destruct (split a) as [|h t] eqn:Hs; [now apply split_not_nil in Hs|].
  reflexivity.
Qed.

Lemma findChanges_start_kept (a b : list string) (indices : list nat) :
  forall cs ce, cs <> -1 -> fst (findChanges a b indices cs ce) = cs.
Proof.
  induction indices as [|i indices IH]; intros cs ce Hcs; simpl; [reflexivity|].
  destruct (negb _); [|now apply IH].
  destruct (Z.eqb_spec cs (-1)); [contradiction|now apply IH].
Qed.

Lemma findChanges_none (a b : list string) (indices : list nat) :
  forall ce,
    fst (findChanges a b indices (-1) ce) = -1 <->
    forall i, In i indices ->
              orEmpty (nth_error a i) = orEmpty (nth_error b i).
Proof.
  induction indices as [|i indices IH]; intros ce; simpl.
  - split; [intros _ i []|reflexivity].
  - destruct (String.eqb_spec (orEmpty (nth_error a i)) (orEmpty (nth_error b i)))
      as [E|E]; simpl.
    + rewrite IH. split.
      * intros H j [<-|Hj]; auto.
      * intros H j Hj. apply H. now right.
    + rewrite findChanges_start_kept by lia. split; [lia|].
      intros H. exfalso. apply E. apply H. now left.
Qed.

Lemma append_nil_r (a : string) : a ++ "" = a.
Proof. induction a; simpl; congruence. Qed.

Lemma unlines_app (x y : list string) :
  unlines (x ++ y)%list = unlines x ++ unlines y.
Proof.
  induction x as [|l x IH]; [reflexivity|].
  cbn [app unlines]. now rewrite IH, !append_assoc.
Qed.

(** The second loop of [generateDiff] appends the lines of [bodyLines],
    each ended by a newline. *)
Lemma emitLines_unlines (a b : list string) (indices : list nat) :
  forall diff,
    emitLines a b indices diff = diff ++ unlines (bodyLines a b indices).
Proof.
  unfold bodyLines.
  induction indices as [|i indices IH]; intros diff.
  - cbn. now rewrite append_nil_r.
  - cbn [emitLines flat_map]. rewrite unlines_app. unfold emitted.
    destruct (sameLine (nth_error a i) (nth_error b i)).
    + rewrite IH. cbn [unlines]. now rewrite !append_assoc.
    + destruct (nth_error a i) as [o|], (nth_error b i) as [n|];
        rewrite IH; cbn [app unlines]; now rewrite ?append_assoc.
Qed.

Lemma append_eq_self (a b : string) : a ++ b = a -> b = "".
Proof. induction a; simpl; intros H; [exact H|]. inversion H. auto. Qed.

(** X12. [generateDiff] returns the bare file headers exactly when the two
    texts agree line by line once a missing line counts as an empty one.
    So a text and the same text with a newline added at its end give a
    diff without a hunk: that edit is not seen. *)
Theorem generateDiff_change_seen (T T' path : string) :
  (generateDiff T T' path = fileHeaders path <->
   forall i, orEmpty (nth_error (split T) i) = orEmpty (nth_error (split T') i))
  /\ generateDiff T (T ++ nl) path = fileHeaders path.
Proof.
  assert (forall A B : string,
             generateDiff A B path = fileHeaders path <->
             forall i, orEmpty (nth_error (split A) i)
                       = orEmpty (nth_error (split B) i)) as Hiff.
  { intros A B. unfold generateDiff.
    set (n := Nat.max (List.length (split A)) (List.length (split B))).
    destruct (findChanges (split A) (split B) (seq 0 n) (-1) (-1))
      as [cs ce] eqn:Hf.
    assert (cs = -1 <->
            forall i, In i (seq 0 n) ->
                      orEmpty (nth_error (split A) i)
                      = orEmpty (nth_error (split B) i)) as Hcs.
    { rewrite <- (findChanges_none (split A) (split B) (seq 0 n) (-1)).
      now rewrite Hf. }
    assert ((forall i, In i (seq 0 n) ->
                       orEmpty (nth_error (split A) i)
                       = orEmpty (nth_error (split B) i))
            <-> forall i, orEmpty (nth_error (split A) i)
                          = orEmpty (nth_error (split B) i)) as Hall.
    { split; [|auto]. intros H i.
      destruct (Nat.lt_ge_cases i n) as [Hi|Hi].
      - apply H. apply in_seq. lia.
      - rewrite (proj2 (nth_error_None (split A) i)) by (unfold n in Hi; lia).
        rewrite (proj2 (nth_error_None (split B) i)) by (unfold n in Hi; lia).
        reflexivity. }
    rewrite <- Hall, <- Hcs.
    destruct (Z.eqb_spec cs (-1)) as [E|E]; [tauto|].
    split; [|contradiction].
    rewrite emitLines_unlines, !append_assoc. intros H.
    apply append_eq_self in H. exfalso. clear -H.
    cbn [String.append] in H. discriminate H. }
  split; [apply Hiff|].
  apply Hiff. intros i. unfold nl. rewrite split_app_nl. simpl.
  destruct (Nat.lt_ge_cases i (List.length (split T))) as [Hi|Hi].
  - now rewrite nth_error_app1.
  - rewrite (proj2 (nth_error_None (split T) i)) by lia.
    rewrite nth_error_app2 by lia.
    destruct (i - List.length (split T))%nat as [|[|k]]; reflexivity.
Qed.

(* ================================================================== *)
(** ** Numbers and headers, written and read back *)
(* ================================================================== *)

Lemma allDigits_uint (d : Decimal.uint) :
  allDigits (NilEmpty.string_of_uint d) = true.
Proof.
  induction d; cbn [NilEmpty.string_of_uint allDigits]; rewrite ?IHd; reflexivity.
Qed.

Ltac digit_value :=
  match goal with
  | |- context [Z.of_N (N_of_ascii ?c) - 48] =>
      let v := eval vm_compute in (Z.of_N (N_of_ascii c) - 48) in
      change (Z.of_N (N_of_ascii c) - 48) with v
  end.

Lemma parseDigits_uint_acc (d : Decimal.uint) :
  forall acc : positive,
    parseDigits (Z.pos acc) (NilEmpty.string_of_uint d)
    = Z.pos (Pos.of_uint_acc d acc).
Proof.
  induction d; intros acc;
    cbn [NilEmpty.string_of_uint parseDigits Pos.of_uint_acc];
    [reflexivity|..];
    digit_value;
    match goal with
    | |- parseDigits ?x _ = Z.pos (Pos.of_uint_acc _ ?p) =>
        replace x with (Z.pos p) by lia
    end;
    apply IHd.
Qed.

Lemma parseDigits_uint (d : Decimal.uint) :
  parseDigits 0 (NilEmpty.string_of_uint d) = Z.of_N (Pos.of_uint d).
Proof.
  induction d;
    cbn [NilEmpty.string_of_uint parseDigits Pos.of_uint Z.of_N];
    [reflexivity|..];
    digit_value; try exact IHd; apply parseDigits_uint_acc.
Qed.

(** The decimal text of a number that is not negative. *)
Lemma show_uint (z : Z) :
  0 <= z ->
  exists d, show z = NilEmpty.string_of_uint d
            /\ d <> Decimal.Nil
            /\ Z.of_N (Pos.of_uint d) = z.
Proof.
  intros Hz. destruct z as [|p|p]; [| |lia].
  - exists (Decimal.D0 Decimal.Nil). repeat split. discriminate.
  - exists (Pos.to_uint p). unfold show. cbn [Z.to_int NilZero.string_of_int].
    pose proof (DecimalPos.Unsigned.of_to p) as Hp.
    destruct (Pos.to_uint p) eqn:E; try (repeat split; [discriminate|now rewrite Hp]).
    discriminate Hp.
Qed.

Lemma parseInt_show (z : Z) : 0 <= z -> parseInt (show z) = z.
Proof.
  intros Hz. destruct (show_uint z Hz) as (d & -> & _ & <-).
  apply parseDigits_uint.
Qed.

Lemma allDigits_show (z : Z) :
  0 <= z -> allDigits (show z) = true /\ show z <> "".
Proof.
  intros Hz. destruct (show_uint z Hz) as (d & -> & Hd & _).
  split; [apply allDigits_uint|]. now destruct d.
Qed.

Lemma digits_app (ds rest : string) :
  allDigits ds = true -> notDigitNext rest ->
  Header.digits (ds ++ rest) = (ds, rest).
Proof.
  intros Hd Hr. induction ds as [|c ds IH].
  - destruct rest as [|c r]; [reflexivity|]. simpl in *. now rewrite Hr.
  - cbn [allDigits] in Hd. apply andb_true_iff in Hd. destruct Hd as [Hc Hd].
    change (Header.digits (String c (ds ++ rest)) = (String c ds, rest)).
    cbn [Header.digits]. now rewrite Hc, (IH Hd).
Qed.

Lemma digits1_app (ds rest : string) :
  allDigits ds = true -> ds <> "" -> notDigitNext rest ->
  Header.digits1 (ds ++ rest) = Some (ds, rest).
Proof.
  intros Hd Hne Hr. unfold Header.digits1. rewrite (digits_app _ _ Hd Hr).
  destruct ds; [contradiction|reflexivity].
Qed.

Lemma optCount_app (ds rest : string) :
  allDigits ds = true -> ds <> "" -> notDigitNext rest ->
  Header.optCount (String "," (ds ++ rest)) = (Some ds, rest).
Proof.
  intros Hd Hne Hr. cbn [Header.optCount].
  change (Ascii.eqb "," ",") with true. cbv iota.
  now rewrite (digits1_app _ _ Hd Hne Hr).
Qed.

Lemma ws1_space (c : ascii) (r : string) :
  isWhitespace c = false ->
  Header.ws1 (String " " (String c r)) = Some (String c r).
Proof.
  intros Hc. cbn [Header.ws1 Header.skipWs].
  change (isWhitespace " ") with true. cbv iota. now rewrite Hc.
Qed.

Lemma opt_same (c : ascii) (r : string) : Header.opt c (String c r) = r.
Proof. cbn [Header.opt]. now rewrite Ascii.eqb_refl. Qed.

(** The header that [generateDiff] writes is read by [parseHunk] as the
    four groups it was written from. *)
Lemma matchHeader_written (sa sb sc sd tail : string) :
  allDigits sa = true -> sa <> "" ->
  allDigits sb = true -> sb <> "" ->
  allDigits sc = true -> sc <> "" ->
  allDigits sd = true -> sd <> "" ->
  Header.matchHeader
    ("@@ -" ++ sa ++ "," ++ sb ++ " +" ++ sc ++ "," ++ sd ++ " @@" ++ tail)
  = Some (sa, Some sb, sc, Some sd).
Proof.
  intros A1 A2 B1 B2 C1 C2 D1 D2. unfold Header.matchHeader.
  cbn [String.append Header.lit2].
  rewrite ws1_space by reflexivity. rewrite opt_same.
  rewrite (digits1_app sa _ A1 A2) by reflexivity. cbv beta iota.
  rewrite (optCount_app sb _ B1 B2) by reflexivity. cbv beta iota.
  rewrite ws1_space by reflexivity. rewrite opt_same.
  rewrite (digits1_app sc _ C1 C2) by reflexivity. cbv beta iota.
  rewrite (optCount_app sd _ D1 D2) by reflexivity. cbv beta iota.
  rewrite ws1_space by reflexivity.
  reflexivity.
Qed.

(* ================================================================== *)
(** ** The generated diff, read by the parser *)
(* ================================================================== *)

Lemma findChanges_seq_range (a b : list string) :
  forall m k cs0 ce0 cs ce,
    findChanges a b (seq k m) cs0 ce0 = (cs, ce) ->
    cs0 = -1 \/ (0 <= cs0 <= ce0 /\ ce0 < Z.of_nat k) ->
    cs = -1 \/ (0 <= cs <= ce /\ ce < Z.of_nat (k + m)).
Proof.
  induction m as [|m IH]; intros k cs0 ce0 cs ce H Hinv; simpl in H.
  - inversion H; subst. rewrite Nat.add_0_r. exact Hinv.
  - replace (k + S m)%nat with (S k + m)%nat by lia.
    destruct (negb _); eapply IH; try exact H.
    + destruct (Z.eqb_spec cs0 (-1)); lia.
    + lia.
Qed.

(** Where the window of a detected change lies. *)
Lemma window_range (T T' : string) :
  fst (changeRange T T') <> -1 ->
  0 <= contextStartOf T T'
  /\ 1 <= windowCount T T'
  /\ contextStartOf T T' + windowCount T T'
     <= Z.of_nat (Nat.max (List.length (split T)) (List.length (split T'))).
Proof.
  unfold windowCount, contextEndOf, contextStartOf, changeRange, MAX_CONTEXT_LINES.
  set (n := Nat.max _ _).
  destruct (findChanges _ _ _ _ _) as [cs ce] eqn:Hf. simpl. intros Hcs.
  destruct (findChanges_seq_range _ _ _ _ _ _ _ _ Hf (or_introl eq_refl))
    as [E|E]; [contradiction|].
  simpl in E. lia.
Qed.

(** The text that [generateDiff] returns when it sees a change: the file
    headers, the hunk header and the lines of the window, each ended by a
    newline. *)
Lemma generateDiff_changed (T T' path : string) :
  fst (changeRange T T') <> -1 ->
  generateDiff T T' path
  = unlines (("--- a/" ++ path)%string :: ("+++ b/" ++ path)%string
             :: hunkHeaderText (contextStartOf T T' + 1) (windowCount T T')
             :: bodyLines (split T) (split T')
                  (seq (Z.to_nat (contextStartOf T T'))
                       (Z.to_nat (windowCount T T')))).
Proof.
  unfold windowCount, contextEndOf, contextStartOf, changeRange, generateDiff.
  destruct (findChanges _ _ _ _ _) as [cs ce]. simpl fst. simpl snd.
  intros Hcs. destruct (Z.eqb_spec cs (-1)); [contradiction|].
  rewrite emitLines_unlines. unfold fileHeaders, hunkHeaderText.
  cbn [unlines]. now rewrite !append_assoc.
Qed.

Lemma generateDiff_unchanged (T T' path : string) :
  fst (changeRange T T') = -1 -> generateDiff T T' path = fileHeaders path.
Proof.
  unfold changeRange, generateDiff.
  destruct (findChanges _ _ _ _ _) as [cs ce]. simpl. now intros ->.
Qed.

Lemma split_no_nl (s l : string) : In l (split s) -> includes l nl = false.
Proof.
  revert l. induction s as [|c s IH]; intros l Hin; simpl in Hin.
  - destruct Hin as [<-|[]]. reflexivity.
  - destruct (Ascii.eqb c NL) eqn:Hc.
    + destruct Hin as [<-|Hin]; [reflexivity|now apply IH].
    + destruct (split s) as [|h t] eqn:Hs; [now apply split_not_nil in Hs|].
      destruct Hin as [<-|Hin].
      * apply includes_nl_cons_inv; [exact Hc|]. apply IH. now left.
      * apply IH. now right.
Qed.

Lemma allDigits_no_nl (s : string) : allDigits s = true -> includes s nl = false.
Proof.
  induction s as [|c s IH]; intros H; [reflexivity|].
  cbn [allDigits] in H. apply andb_true_iff in H. destruct H as [Hc Hs].
  apply includes_nl_cons_inv; [|now apply IH].
  destruct (Ascii.eqb c NL) eqn:E; [|reflexivity].
  apply Ascii.eqb_eq in E. subst c. discriminate Hc.
Qed.

Lemma hunkHeaderText_no_nl (s c : Z) :
  0 <= s -> 0 <= c -> includes (hunkHeaderText s c) nl = false.
Proof.
  intros Hs Hc. unfold hunkHeaderText.
  pose proof (allDigits_no_nl _ (proj1 (allDigits_show s Hs))) as Ns.
  pose proof (allDigits_no_nl _ (proj1 (allDigits_show c Hc))) as Nc.
  repeat (apply includes_nl_app; [first [exact Ns|exact Nc|reflexivity]|]).
  reflexivity.
Qed.

Lemma emitted_plain (o n : option string) :
  (forall l, o = Some l -> includes l nl = false) ->
  (forall l, n = Some l -> includes l nl = false) ->
  Forall plainLine (emitted o n).
Proof.
  intros Ho Hn. unfold emitted.
  destruct (sameLine o n).
  - constructor; [|constructor]. split; [|reflexivity].
    apply includes_nl_app; [reflexivity|].
    destruct o as [l|]; [now apply Ho|reflexivity].
  - apply Forall_app. split.
    + destruct o as [l|]; constructor; [|constructor].
      split; [|reflexivity]. apply includes_nl_app; [reflexivity|now apply Ho].
    + destruct n as [l|]; constructor; [|constructor].
      split; [|reflexivity]. apply includes_nl_app; [reflexivity|now apply Hn].
Qed.

Lemma bodyLines_plain (T T' : string) (indices : list nat) :
  Forall plainLine (bodyLines (split T) (split T') indices).
Proof.
  unfold bodyLines. induction indices as [|i indices IH]; simpl; [constructor|].
  apply Forall_app. split; [|exact IH].
  apply emitted_plain; intros l Hl;
    eapply split_no_nl; eapply nth_error_In; exact Hl.
Qed.

Lemma split_unlines (ls : list string) :
  Forall (fun l => includes l nl = false) ls ->
  split (unlines ls) = (ls ++ [""])%list.
Proof.
  induction 1 as [|l ls Hl _ IH]; [reflexivity|].
  cbn [unlines app]. now rewrite (split_line _ _ Hl), IH.
Qed.

(** Beyond index [i] no line starts a hunk: the scan runs to the end. *)
Lemma parseDiffLoop_no_header_from (ls : list string) :
  forall fuel i acc,
    (forall j l, (i <= j)%nat -> nth_error ls j = Some l ->
                 startsWith l "@@" = false) ->
    (List.length ls - i < fuel)%nat ->
    parseDiffLoop fuel ls i acc = Some (Ok acc).
Proof.
  induction fuel as [|fuel IH]; intros i acc Hno Hf; [lia|].
  simpl. destruct (nth_error ls i) as [line|] eqn:Hn; [|reflexivity].
  assert (i < List.length ls)%nat as Hi by (apply nth_error_Some; congruence).
  rewrite (Hno i line (Nat.le_refl i) Hn).
  assert (forall j l, (S i <= j)%nat -> nth_error ls j = Some l ->
                      startsWith l "@@" = false) as Hno'
      by (intros j l Hj; apply Hno; lia).
  destruct (startsWith line "---"); [apply IH; auto; lia|].
  destruct (startsWith line "+++"); apply IH; auto; lia.
Qed.

Lemma parseDiffLoop_S (fuel : nat) (ls : list string) (i : nat)
      (acc : list DiffHunk) :
  parseDiffLoop (S fuel) ls i acc
  = match nth_error ls i with
    | None => Some (Ok acc)
    | Some line =>
        if startsWith line "---" then parseDiffLoop fuel ls (S i) acc
        else if startsWith line "+++" then parseDiffLoop fuel ls (S i) acc
        else if startsWith line "@@" then
          match parseHunk ls i with
          | Ok (hunk, nextIndex) =>
              parseDiffLoop fuel ls nextIndex (acc ++ [hunk])%list
          | Err e =>
              Some (Err ("Invalid hunk at line " ++ showN (S i) ++ ": " ++ e))
          end
        else parseDiffLoop fuel ls (S i) acc
    end.
Proof. reflexivity. Qed.

(** The lines of a generated diff that holds a hunk. *)
Lemma generated_lines (T T' path : string) :
  includes path nl = false ->
  fst (changeRange T T') <> -1 ->
  split (generateDiff T T' path)
  = ("--- a/" ++ path)%string :: ("+++ b/" ++ path)%string
    :: hunkHeaderText (contextStartOf T T' + 1) (windowCount T T')
    :: (bodyLines (split T) (split T')
          (seq (Z.to_nat (contextStartOf T T')) (Z.to_nat (windowCount T T')))
        ++ [""])%list.
Proof.
  intros Hp Hcs. rewrite (generateDiff_changed T T' path Hcs).
  destruct (window_range T T' Hcs) as (W1 & W2 & _).
  rewrite split_unlines; [reflexivity|].
  repeat constructor.
  - apply includes_nl_app; [reflexivity|exact Hp].
  - apply includes_nl_app; [reflexivity|exact Hp].
  - apply hunkHeaderText_no_nl; lia.
  - eapply Forall_impl; [|apply bodyLines_plain]. now intros l [H _].
Qed.

Lemma matchHeader_hunkHeaderText (s c : Z) :
  0 <= s -> 0 <= c ->
  Header.matchHeader (hunkHeaderText s c)
  = Some (show s, Some (show c), show s, Some (show c)).
Proof.
  intros Hs Hc.
  destruct (allDigits_show s Hs) as [S1 S2].
  destruct (allDigits_show c Hc) as [C1 C2].
  exact (matchHeader_written (show s) (show c) (show s) (show c) ""
                             S1 S2 C1 C2 S1 S2 C1 C2).
Qed.

Section Generated.

Variables (T T' path : string).
Hypothesis path_one_line : includes path nl = false.
Hypothesis change_seen : generateDiff T T' path <> fileHeaders path.

Lemma change_found : fst (changeRange T T') <> -1.
Proof.
  intros E. apply change_seen. now apply generateDiff_unchanged.
Qed.

(** X13. When [generateDiff] writes a hunk for a window of at most 100
    lines, [parseDiff] reads its output back as exactly one hunk, whose
    old and new start are the first line of the window and whose old and
    new counts are the number of lines of the window; the window lies
    inside the longer of the two texts. *)
Theorem generated_diff_parses :
  windowCount T T' <= MAX_HUNK_SIZE ->
  exists body,
    parseDiff (generateDiff T T' path)
    = Ok [mkHunk (contextStartOf T T' + 1) (windowCount T T')
                 (contextStartOf T T' + 1) (windowCount T T') body]
    /\ 1 <= contextStartOf T T' + 1
    /\ 1 <= windowCount T T'
    /\ contextStartOf T T' + windowCount T T'
       <= Z.of_nat (Nat.max (List.length (split T)) (List.length (split T'))).
Proof.
  intros Hsmall. pose proof change_found as Hcs.
  destruct (window_range T T' Hcs) as (W1 & W2 & W3).
  set (s := contextStartOf T T' + 1) in *.
  set (c := windowCount T T') in *.
  pose proof (generated_lines T T' path path_one_line Hcs) as Hl.
  fold s c in Hl.
  set (body := (bodyLines (split T) (split T')
                  (seq (Z.to_nat (contextStartOf T T')) (Z.to_nat c))
                ++ [""])%list) in *.
  set (L := ("--- a/" ++ path)%string :: ("+++ b/" ++ path)%string
            :: hunkHeaderText s c :: body) in *.
  assert (exists hl next, parseHunk L 2 = Ok (mkHunk s c s c hl, next)) as Hh.
  { unfold parseHunk. cbn [nth_error L].
    rewrite matchHeader_hunkHeaderText by (unfold s; lia).
    cbn [declaredCount]. rewrite !parseInt_show by (unfold s; lia).
    assert (((c >? MAX_HUNK_SIZE) || (c >? MAX_HUNK_SIZE))%bool = false) as ->.
    { rewrite orb_diag, Z.gtb_ltb. now apply Z.ltb_ge. }
    destruct (parseBody _ _ _ _) as [hl next]. eauto. }
  destruct Hh as (hl & next & Hh).
  exists hl. split; [|unfold s; lia].
  unfold parseDiff. rewrite Hl.
  change (List.length L) with (S (S (S (List.length body)))).
  rewrite parseDiffLoop_S. cbn [nth_error L].
  change (startsWith ("--- a/" ++ path) "---") with true. cbv iota.
  rewrite parseDiffLoop_S. cbn [nth_error L].
  change (startsWith ("+++ b/" ++ path) "---") with false.
  change (startsWith ("+++ b/" ++ path) "+++") with true. cbv iota.
  rewrite parseDiffLoop_S. cbn [nth_error L].
  change (startsWith (hunkHeaderText s c) "---") with false.
  change (startsWith (hunkHeaderText s c) "+++") with false.
  change (startsWith (hunkHeaderText s c) "@@") with true. cbv iota.
  rewrite Hh.
  rewrite parseDiffLoop_no_header_from; [reflexivity| |].
  - intros j l Hj Hn. apply parseHunk_next in Hh.
    destruct j as [|[|[|j]]]; try lia.
    cbn [nth_error L] in Hn. apply nth_error_In in Hn.
    unfold body in Hn. apply in_app_or in Hn. destruct Hn as [Hn|[<-|[]]].
    + pose proof (bodyLines_plain T T'
                    (seq (Z.to_nat (contextStartOf T T')) (Z.to_nat c))) as Hb.
      rewrite Forall_forall in Hb. now destruct (Hb l Hn).
    + reflexivity.
  - apply parseHunk_next in Hh.
    change (List.length L) with (S (S (S (List.length body)))). lia.
Qed.

(** X14. When the window that [generateDiff] writes has more than 100
    lines, its own output is refused: [applyCodeDiff] fails at line 3 of
    the diff with the hunk-too-large error and returns no content. *)
Theorem generated_diff_too_large :
  MAX_HUNK_SIZE < windowCount T T' ->
  applyCodeDiff T (generateDiff T T' path)
  = mkResult false None
             (Some ("Invalid hunk at line 3: Hunk too large ("
                    ++ show (windowCount T T') ++ " lines, max 100)"))
             0 0 [].
Proof.
  intros Hbig. pose proof change_found as Hcs.
  destruct (window_range T T' Hcs) as (W1 & W2 & W3).
  pose proof (generated_lines T T' path path_one_line Hcs) as Hl.
  set (s := contextStartOf T T' + 1) in *.
  set (c := windowCount T T') in *.
  unfold applyCodeDiff.
  rewrite (parseDiff_first_error (generateDiff T T' path)
             [("--- a/" ++ path)%string; ("+++ b/" ++ path)%string]
             _ (hunkHeaderText s c)
             ("Hunk too large (" ++ show c ++ " lines, max 100)") Hl).
  - reflexivity.
  - intros l [<-|[<-|[]]]; reflexivity.
  - reflexivity.
  - rewrite Hl. unfold parseHunk. cbn [List.length nth_error].
    rewrite matchHeader_hunkHeaderText by (unfold s; lia).
    cbn [declaredCount]. rewrite !parseInt_show by (unfold s; lia).
    assert (((c >? MAX_HUNK_SIZE) || (c >? MAX_HUNK_SIZE))%bool = true) as ->.
    { rewrite orb_diag, Z.gtb_ltb. now apply Z.ltb_lt. }
    rewrite Z.max_id. reflexivity.
Qed.

End Generated.

Lemma generated_diff_parses_witness :
  let T := "a
b
c" in
  let T' := "a
B
c" in
  windowCount T T' = 3
  /\ exists body,
      parseDiff (generateDiff T T' "f.ts") = Ok [mkHunk 1 3 1 3 body].
Proof.
  intros T T'. split; [reflexivity|].
  destruct (generated_diff_parses T T' "f.ts" eq_refl) as (body & Hp & _).
  - vm_compute. discriminate.
  - vm_compute. discriminate.
  - exists body. exact Hp.
Defined.

Lemma generated_diff_too_large_witness :
  windowCount Samples.longOld Samples.longNew = 105
  /\ applyCodeDiff Samples.longOld
                   (generateDiff Samples.longOld Samples.longNew "f.ts")
     = mkResult false None
         (Some "Invalid hunk at line 3: Hunk too large (105 lines, max 100)")
         0 0 [].
Proof.
  split; [vm_compute; reflexivity|].
  rewrite (generated_diff_too_large Samples.longOld Samples.longNew "f.ts" eq_refl).
  - vm_compute. reflexivity.
  - vm_compute. discriminate.
  - vm_compute. reflexivity.
Defined.

(* ================================================================== *)
(** ** Validation sees trimmed text only *)
(* ================================================================== *)

Lemma trimEnd_idem (s : string) : trimEnd (trimEnd s) = trimEnd s.
Proof.
  induction s as [|c s IH]; [reflexivity|].
  cbn [trimEnd]. destruct (trimEnd s) as [|d t] eqn:Ht.
  - destruct (isWhitespace c) eqn:Hc; [reflexivity|].
    cbn [trimEnd]. now rewrite Hc.
  - cbn [trimEnd]. cbn [trimEnd] in IH. now rewrite IH.
Qed.

Lemma trimEnd_head (c : ascii) (r : string) :
  isWhitespace c = false -> exists r', trimEnd (String c r) = String c r'.
Proof.
  intros Hc. cbn [trimEnd]. rewrite Hc. destruct (trimEnd r); eauto.
Qed.

Lemma trimStart_head (s : string) :
  trimStart s = ""
  \/ exists c r, trimStart s = String c r /\ isWhitespace c = false.
Proof.
  induction s as [|c s IH]; [now left|].
  cbn [trimStart]. destruct (isWhitespace c) eqn:Hc; [exact IH|].
  right. eauto.
Qed.

Lemma trim_idem (s : string) : trim (trim s) = trim s.
Proof.
  unfold trim. destruct (trimStart_head s) as [->|(c & r & -> & Hc)];
    [reflexivity|].
  destruct (trimEnd_head c r Hc) as [r' Hr]. rewrite Hr.
  cbn [trimStart]. rewrite Hc, <- Hr. apply trimEnd_idem.
Qed.

Lemma validateLoop_trimmed (buf : list string) (ds : list DiffLine) :
  forall i,
    validateLoop (map trim buf) (map trimLine ds) i = validateLoop buf ds i.
Proof.
  induction ds as [|d ds IH]; intros i; [reflexivity|].
  cbn [map validateLoop]. rewrite nth_error_map.
  destruct (nth_error buf i) as [l|]; [|reflexivity].
  cbn [option_map]. change (isOld (trimLine d)) with (isOld d).
  change (content (trimLine d)) with (trim (content d)).
  unfold mismatchError. rewrite !trim_idem, IH. reflexivity.
Qed.

Lemma filter_isOld_trimmed (ds : list DiffLine) :
  filter isOld (map trimLine ds) = map trimLine (filter isOld ds).
Proof.
  induction ds as [|d ds IH]; [reflexivity|].
  cbn [map filter]. change (isOld (trimLine d)) with (isOld d).
  destruct (isOld d); cbn [map]; now rewrite IH.
Qed.

(** X15. Context validation sees only trimmed text: trimming every line
    of the buffer and of the hunk changes neither whether the hunk is
    accepted nor the error that is reported.  Indentation and trailing
    blanks of the file and of the patch are never compared. *)
Theorem validation_sees_trimmed_text
        (buf : list string) (h : DiffHunk) (start : nat) :
  validateHunkContext (map trim buf) (trimHunk h) start
  = validateHunkContext buf h start
  /\ validateHunkContext (map trim buf) h start = validateHunkContext buf h start
  /\ validateHunkContext buf (trimHunk h) start = validateHunkContext buf h start.
Proof.
  assert (forall b g, validateHunkContext (map trim b) (trimHunk g) start
                      = validateHunkContext b g start) as H1.
  { intros b g. unfold validateHunkContext, trimHunk. cbn [lines].
    rewrite filter_isOld_trimmed. apply validateLoop_trimmed. }
  assert (map trim (map trim buf) = map trim buf) as Hb.
  { rewrite map_map. apply map_ext. intros l. apply trim_idem. }
  assert (trimHunk (trimHunk h) = trimHunk h) as Hh.
  { unfold trimHunk. cbn [oldStart oldLines newStart newLines lines].
    f_equal. rewrite map_map. apply map_ext.
    intros d. unfold trimLine. cbn [type content]. now rewrite trim_idem. }
  split; [apply H1|]. split.
  - transitivity (validateHunkContext (map trim (map trim buf)) (trimHunk h) start);
      [symmetry; apply H1|].
    rewrite Hb. apply H1.
  - transitivity (validateHunkContext (map trim buf) (trimHunk (trimHunk h)) start);
      [symmetry; apply H1|].
    rewrite Hh. apply H1.
Qed.

(* ================================================================== *)
(** ** Text in front of the first hunk *)
(* ================================================================== *)

Lemma parseBody_shift (k : nat) (e : Z) (rest : list string) :
  forall i c,
    parseBody e rest (k + i) c
    = (fst (parseBody e rest i c), (k + snd (parseBody e rest i c))%nat).
Proof.
  induction rest as [|line rest IH]; intros i c; [reflexivity|].
  cbn [parseBody]. destruct (negb _); [reflexivity|].
  destruct (isBoundary line); [reflexivity|].
  replace (S (k + i)) with (k + S i)%nat by lia. rewrite IH.
  now destruct (parseBody e rest (S i) (S c)).
Qed.

Lemma parseHunk_shift (pre ls : list string) (i : nat) :
  parseHunk (pre ++ ls)%list (List.length pre + i)
  = match parseHunk ls i with
    | Ok (h, next) => Ok (h, (List.length pre + next)%nat)
    | Err e => Err e
    end.
Proof.
  unfold parseHunk.
  rewrite nth_error_app2 by lia.
  replace (List.length pre + i - List.length pre)%nat with i by lia.
  destruct (nth_error ls i) as [header|]; [|reflexivity].
  destruct (Header.matchHeader header) as [[[[g1 g2] g3] g4]|]; [|reflexivity].
  destruct (_ || _)%bool; [reflexivity|].
  replace (skipn (S (List.length pre + i)) (pre ++ ls)%list)
    with (skipn (S i) ls).
  - replace (S (List.length pre + i)) with (List.length pre + S i)%nat by lia.
    rewrite parseBody_shift. now destruct (parseBody _ _ _ _).
  - rewrite skipn_app.
    rewrite (skipn_all2 (n := S (List.length pre + i)) pre) by lia.
    replace (S (List.length pre + i) - List.length pre)%nat with (S i) by lia.
    reflexivity.
Qed.

Lemma parseDiffLoop_shift (pre ls : list string) :
  forall fuel i acc hs,
    parseDiffLoop fuel ls i acc = Some (Ok hs) ->
    parseDiffLoop fuel (pre ++ ls)%list (List.length pre + i) acc = Some (Ok hs).
Proof.
  induction fuel as [|fuel IH]; intros i acc hs H; [discriminate|].
  rewrite parseDiffLoop_S in *.
  rewrite nth_error_app2 by lia.
  replace (List.length pre + i - List.length pre)%nat with i by lia.
  destruct (nth_error ls i) as [line|]; [|exact H].
  replace (S (List.length pre + i)) with (List.length pre + S i)%nat by lia.
  destruct (startsWith line "---"); [now apply IH|].
  destruct (startsWith line "+++"); [now apply IH|].
  destruct (startsWith line "@@"); [|now apply IH].
  rewrite parseHunk_shift.
  destruct (parseHunk ls i) as [[h next]|e]; [now apply IH|discriminate].
Qed.

Lemma parseDiffLoop_skip (pre ls : list string) :
  (forall l, In l pre -> startsWith l "@@" = false) ->
  forall k fuel j acc,
    (j + k = List.length pre)%nat ->
    parseDiffLoop (k + fuel) (pre ++ ls)%list j acc
    = parseDiffLoop fuel (pre ++ ls)%list (List.length pre) acc.
Proof.
  intros Hno. induction k as [|k IH]; intros fuel j acc Hj.
  - simpl. f_equal. lia.
  - change (S k + fuel)%nat with (S (k + fuel)). rewrite parseDiffLoop_S.
    destruct (nth_error (pre ++ ls)%list j) as [l|] eqn:Hn.
    2:{ apply nth_error_None in Hn. rewrite length_app in Hn. lia. }
    rewrite nth_error_app1 in Hn by lia.
    rewrite (Hno l (nth_error_In _ _ Hn)).
    destruct (startsWith l "---"); [apply IH; lia|].
    destruct (startsWith l "+++"); apply IH; lia.
Qed.

(** A parse that fails behind leading lines fails in the same way, with
    the line number moved by the number of leading lines. *)
Lemma parseDiffLoop_shift_err (pre ls : list string) :
  forall fuel i acc e,
    parseDiffLoop fuel ls i acc = Some (Err e) ->
    exists n msg,
      e = "Invalid hunk at line " ++ showN n ++ ": " ++ msg
      /\ parseDiffLoop fuel (pre ++ ls)%list (List.length pre + i) acc
         = Some (Err ("Invalid hunk at line " ++ showN (List.length pre + n)
                      ++ ": " ++ msg)).
Proof.
  induction fuel as [|fuel IH]; intros i acc e H; [discriminate|].
  rewrite parseDiffLoop_S in *.
  rewrite nth_error_app2 by lia.
  replace (List.length pre + i - List.length pre)%nat with i by lia.
  destruct (nth_error ls i) as [line|]; [|discriminate].
  replace (S (List.length pre + i)) with (List.length pre + S i)%nat by lia.
  destruct (startsWith line "---"); [now apply IH|].
  destruct (startsWith line "+++"); [now apply IH|].
  destruct (startsWith line "@@"); [|now apply IH].
  rewrite parseHunk_shift.
  destruct (parseHunk ls i) as [[h next]|e0]; [now apply IH|].
  inversion H; subst. exists (S i), e0. split; reflexivity.
Qed.

(** X16. Text in front of a diff that has no line starting with [@@],
    such as the [diff] and [index] lines of a git patch, is passed over.
    When the diff parses, it parses to the same hunks with the text in
    front, and [applyCodeDiff] gives the same result.  When the diff does
    not parse, it fails with the same error behind the text, except that
    the line number in the error grows by the number of lines in front. *)
Theorem leading_text_ignored (P D : string) :
  (forall l, In l (split P) -> startsWith l "@@" = false) ->
  (forall hunks,
      parseDiff D = Ok hunks ->
      parseDiff (P ++ nl ++ D) = Ok hunks
      /\ forall T, applyCodeDiff T (P ++ nl ++ D) = applyCodeDiff T D)
  /\ (forall e,
         parseDiff D = Err e ->
         exists n msg,
           e = "Invalid hunk at line " ++ showN n ++ ": " ++ msg
           /\ parseDiff (P ++ nl ++ D)
              = Err ("Invalid hunk at line "
                     ++ showN (List.length (split P) + n) ++ ": " ++ msg)
           /\ forall T,
               applyCodeDiff T D = mkResult false None (Some e) 0 0 []
               /\ applyCodeDiff T (P ++ nl ++ D)
                  = mkResult false None
                      (Some ("Invalid hunk at line "
                             ++ showN (List.length (split P) + n) ++ ": " ++ msg))
                      0 0 []).
Proof.
  intros Hno.
  assert (forall r,
             parseDiffLoop (S (List.length (split D)))
                           (split P ++ split D)%list (List.length (split P)) []
             = Some r ->
             parseDiff (P ++ nl ++ D) = r) as Hskip.
  { intros r Hr. unfold parseDiff. unfold nl. cbn [String.append].
    rewrite split_app_nl, length_app.
    replace (S (List.length (split P) + List.length (split D)))
      with (List.length (split P) + S (List.length (split D)))%nat by lia.
    rewrite (parseDiffLoop_skip _ _ Hno) by lia.
    now rewrite Hr. }
  split.
  - intros hunks Hp.
    assert (parseDiff (P ++ nl ++ D) = Ok hunks) as Hq.
    { pose proof (parseDiff_total D) as Ht. rewrite Hp in Ht.
      apply (parseDiffLoop_shift (split P)) in Ht.
      rewrite Nat.add_0_r in Ht. now apply Hskip. }
    split; [exact Hq|]. intros T. unfold applyCodeDiff. now rewrite Hq, Hp.
  - intros e Hp.
    pose proof (parseDiff_total D) as Ht. rewrite Hp in Ht.
    destruct (parseDiffLoop_shift_err (split P) _ _ _ _ _ Ht)
      as (n & msg & He & Hs).
    rewrite Nat.add_0_r in Hs. apply Hskip in Hs.
    exists n, msg. split; [exact He|]. split; [exact Hs|].
    intros T. unfold applyCodeDiff. rewrite Hp, Hs. split; reflexivity.
Qed.

Lemma leading_text_ignored_witness :
  let P := "diff --git a/f.ts b/f.ts
index 83db48f..bf2a1c0 100644" in
  let D := "--- a/f.ts
+++ b/f.ts
@@ -2,1 +2,1 @@
-b
+B" in
  (forall l, In l (split P) -> startsWith l "@@" = false)
  /\ applyCodeDiff "a
b
c" (P ++ nl ++ D) = mkResult true (Some "a
B
c") None 1 1 []
  /\ exists n msg,
      parseDiff "@@ bad" = Err ("Invalid hunk at line " ++ showN n ++ ": " ++ msg)
      /\ parseDiff (P ++ nl ++ "@@ bad")
         = Err ("Invalid hunk at line " ++ showN (2 + n) ++ ": " ++ msg).
Proof.
  intros P D.
  assert (forall l, In l (split P) -> startsWith l "@@" = false) as Hno
      by (intros l [<-|[<-|[]]]; reflexivity).
  split; [exact Hno|]. split.
  - destruct (leading_text_ignored P D Hno) as [Hok _].
    destruct (Hok [mkHunk 2 1 2 1 [mkLine LRemove "b"; mkLine LAdd "B"]] eq_refl)
      as [_ Ha].
    rewrite Ha. reflexivity.
  - destruct (leading_text_ignored P "@@ bad" Hno) as [_ Herr].
    destruct (Herr _ eq_refl) as (n & msg & He & Hs & _).
    exists n, msg. split; [now rewrite <- He|exact Hs].
Defined.

(* ================================================================== *)
(** ** A context line that the cursor does not step over *)
(* ================================================================== *)

(** X17. A context line is stepped over only while the cursor is below
    the original number of lines.  On a buffer that ends with line [l], the
    hunk that starts on that line, adds [x], keeps [l] as context and adds
    [y] is accepted, and places [y] before [l] rather than after it: the
    add line before the context line has moved the cursor to the original
    length, so the context line is not stepped over. *)
Theorem context_at_original_length_not_passed
        (pre : list string) (l x y : string) (c1 s2 c2 : Z) :
  let h := mkHunk (Z.of_nat (List.length pre) + 1) c1 s2 c2
                  [mkLine LAdd x; mkLine LContext l; mkLine LAdd y] in
  applyHunk (pre ++ [l])%list h 0 = Ok ((pre ++ [x; y; l])%list, 2)
  /\ (pre ++ patch (lines h) [l])%list = (pre ++ [x; l; y])%list.
Proof.
  intros h. split; [|reflexivity].
  assert (List.length (pre ++ [l])%list = S (List.length pre)) as Hlen
      by (rewrite length_app; simpl; lia).
  rewrite applyHunk_inside by (rewrite Hlen; unfold h; simpl; lia).
  unfold h. cbn [oldStart lines oldSide].
  replace (Z.to_nat (Z.of_nat (List.length pre) + 1 + 0 - 1))
    with (List.length pre) by lia.
  unfold oldSide. cbn [lines filter isOld type].
  rewrite skipn_app, skipn_all, Nat.sub_diag. cbn [app skipn validateSuffix].
  cbn [isOld type]. rewrite agrees_refl. cbn [negb andb].
  rewrite Hlen. cbn [applyLines type content].
  rewrite spliceInsert_at.
  rewrite Nat.ltb_irrefl.
  replace (pre ++ [x; l])%list with ((pre ++ [x]) ++ [l])%list
    by (rewrite <- app_assoc; reflexivity).
  replace (S (List.length pre)) with (List.length (pre ++ [x])%list)
    by (rewrite length_app; simpl; lia).
  rewrite spliceInsert_at. rewrite <- app_assoc. reflexivity.
Qed.
